(** * Fake quantization, per-tensor affine scheme (CUDA operator)

    A shallow embedding of
    [aten/src/ATen/native/quantized/cuda/fake_quantize_per_tensor_affine.cu]:
    the forward operator [fake_quantize_per_tensor_affine_cuda] and its
    straight-through-estimator gradient
    [fake_quantize_per_tensor_affine_backward_cuda].

    - [int64_t] arguments are integers of [Z]; the operators only compare
      them and convert them to [float], so no wrap-around arises.
    - [float] and [double] values are IEEE 754 binary32 / binary64 numbers,
      given by the Standard Library's [spec_float] with the parameters
      (24, 128) and (53, 1024), rounding to nearest, ties to even.  Each
      operation of a C++ expression rounds on its own (no contraction of
      [a * b + c] into a fused multiply-add), with the usual arithmetic
      conversions: [float * double] is computed in [double], an [int64_t]
      operand of a [float] operation is converted to [float].
    - Tensors are handles (storage key, sizes, device, dtype) into a heap
      of buffers, so that allocation, aliasing and in-place writes are
      visible.
    - Exceptions and the heap are threaded by a small state-and-error monad. *)

From Stdlib Require Import ZArith Bool Lia.
From Stdlib Require Import Floats.SpecFloat.
From stdpp Require Import base option list gmap.

Local Open Scope Z_scope.

(** ** IEEE 754 arithmetic as the C++ expressions use it *)

Module IEEE.

(** [float]: binary32. *)
Definition fprec : Z := 24.
Definition femax : Z := 128.
(** [double]: binary64. *)
Definition dprec : Z := 53.
Definition demax : Z := 1024.

Definition float := spec_float.
Definition double := spec_float.

Definition fvalid (x : float) : bool := valid_binary fprec femax x.

(** [float * float], [float + float], [float - float]. *)
Definition fmul (x y : float) : float := SFmul fprec femax x y.
Definition fadd (x y : float) : float := SFadd fprec femax x y.
Definition fsub (x y : float) : float := SFsub fprec femax x y.

(** [double * double], [double / double]. *)
Definition dmul (x y : double) : double := SFmul dprec demax x y.
Definition ddiv (x y : double) : double := SFdiv dprec demax x y.

(** Implicit conversion [int64_t -> float] (round to nearest even). *)
Definition float_of_int64 (z : Z) : float :=
  binary_normalize fprec femax z 0 false.

(** Implicit conversion [float -> double]: exact. *)
Definition double_of_float (x : float) : double :=
  match x with
  | S754_finite s m e =>
      binary_normalize dprec demax (cond_Zopp s (Zpos m)) e s
  | _ => x
  end.

(** Implicit conversion [double -> float] (round to nearest even). *)
Definition float_of_double (x : double) : float :=
  match x with
  | S754_finite s m e =>
      binary_normalize fprec femax (cond_Zopp s (Zpos m)) e s
  | _ => x
  end.

(** The literal [1.0f]. *)
Definition one : float := S754_finite false 8388608 (-23).
(** [+0.0f]. *)
Definition zero : float := S754_zero false.

(** [float(b)] for a [bool] b. *)
Definition float_of_bool (b : bool) : float := if b then one else zero.

Definition is_nan (x : spec_float) : bool :=
  match x with S754_nan => true | _ => false end.

Definition is_zero (x : spec_float) : bool :=
  match x with S754_zero _ => true | _ => false end.

Definition is_finite (x : spec_float) : bool :=
  match x with S754_zero _ | S754_finite _ _ _ => true | _ => false end.

(** The integer nearest to |m * 2^e|, halfway cases away from zero. *)
Definition round_half_away (m : positive) (e : Z) : Z :=
  if 0 <=? e then Zpos m * 2 ^ e
  else (Zpos m + 2 ^ (- e - 1)) / 2 ^ (- e).

(** [std::round] on [float] ([roundf]): the nearest integer, halfway
    cases away from zero, as a [float]; the sign of the argument is kept,
    also on a zero result. *)
Definition roundf (x : float) : float :=
  match x with
  | S754_finite s m e =>
      binary_normalize fprec femax (cond_Zopp s (round_half_away m e)) 0 s
  | _ => x
  end.

(** [x >= y] and [x <= y] on [float]: false when either is a NaN. *)
Definition fle (x y : float) : bool := SFleb x y.
Definition fge (x y : float) : bool := SFleb y x.
Definition flt (x y : float) : bool := SFltb x y.

(** [fmaxf]: a NaN argument is treated as missing; of two zeros of
    opposite sign the positive one is returned. *)
Definition fmaxf (x y : float) : float :=
  if is_nan y then x
  else if is_nan x then y
  else match x, y with
       | S754_zero sx, S754_zero sy => S754_zero (sx && sy)
       | _, _ => if flt x y then y else x
       end.

(** [fminf]: a NaN argument is treated as missing; of two zeros of
    opposite sign the negative one is returned. *)
Definition fminf (x y : float) : float :=
  if is_nan y then x
  else if is_nan x then y
  else match x, y with
       | S754_zero sx, S754_zero sy => S754_zero (sx || sy)
       | _, _ => if flt y x then y else x
       end.

(** Numerical equality of two values: identical, or zeros of any sign. *)
Definition same_value (x y : spec_float) : Prop :=
  x = y \/ (is_zero x = true /\ is_zero y = true).

End IEEE.

Import IEEE.

(** ** Tensors and the heap of buffers *)

Inductive ScalarType := Byte | Int | Long | Half | Float | Double.

#[global] Instance ScalarType_eq_dec : EqDecision ScalarType.
Proof. solve_decision. Defined.

(** A tensor handle.  Copying an [at::Tensor] copies the handle: the two
    share [storage]. *)
Record Tensor := mkTensor {
  storage : nat;
  sizes : list nat;
  is_cuda : bool;
  scalar_type : ScalarType
}.

(** [numel()]: the product of the sizes. *)
Definition numel (t : Tensor) : Z := Z.of_nat (foldr Nat.mul 1%nat (sizes t)).

Abbreviation Heap := (gmap nat (list float)).

(** The elements of a tensor, in index order. *)
Definition data (h : Heap) (t : Tensor) : list float :=
  default [] (h !! storage t).

(** A tensor is well formed in a heap when its buffer is there and holds
    [numel] elements. *)
Definition wf (h : Heap) (t : Tensor) : Prop :=
  exists d, h !! storage t = Some d /\ Z.of_nat (length d) = numel t.

(** The handle of a buffer [k] with the sizes, device and dtype of [t]. *)
Definition like (k : nat) (t : Tensor) : Tensor :=
  mkTensor k (sizes t) (is_cuda t) (scalar_type t).

(** ** Errors, and the monad of the operators *)

(** The failures of the operators.  The [std::invalid_argument] exceptions
    are named by what they report; the two [TORCH_CHECK]s on the device
    and the dtype of the tensor are [UnsupportedDevice] and
    [UnsupportedDtype]. *)
Inductive Error :=
| UnsupportedDevice
| UnsupportedDtype
| InvalidRange
| InvalidZeroPoint
| InvalidDelay
| InvalidIter
| ShapeMismatch.

Inductive result (A : Type) :=
| Ok (a : A)
| Throw (e : Error).
Arguments Ok {A} a.
Arguments Throw {A} e.

Definition M (A : Type) : Type := Heap -> result (A * Heap).

Definition ret {A} (a : A) : M A := fun h => Ok (a, h).

Definition bind {A B} (c : M A) (k : A -> M B) : M B :=
  fun h => match c h with
           | Ok (a, h') => k a h'
           | Throw e => Throw e
           end.

Definition throw {A} (e : Error) : M A := fun _ => Throw e.

(** [if (c) throw e;] *)
Definition throw_if (c : bool) (e : Error) : M unit :=
  if c then throw e else ret tt.

(** Modelled from the spec: the macro [TORCH_CHECK(c)] of the array
    runtime; a check that fails raises the precondition error [e]. *)
Definition TORCH_CHECK (c : bool) (e : Error) : M unit :=
  throw_if (negb c) e.

Notation "'do' x <- c1 ; c2" := (bind c1 (fun x => c2))
  (at level 10, x name, c1 at level 100, c2 at level 200).
Notation "c1 ;; c2" := (bind c1 (fun _ => c2))
  (at level 100, c2 at level 200, right associativity).

(** ** The tensor library the operators call *)

Section Operators.

(** What a freshly allocated, uninitialised buffer reads as at each
    position. *)
Variable uninit : nat -> float.

(** Modelled from the spec: the allocation primitive of the array
    runtime ([emptyLike]); a new buffer, sizes, device and dtype of the
    argument, contents unspecified. *)
Definition empty_like (t : Tensor) : M Tensor :=
  fun h =>
    let k := fresh (dom h) in
    Ok (mkTensor k (sizes t) (is_cuda t) (scalar_type t),
        <[k := uninit <$> seq 0 (Z.to_nat (numel t))]> h).

(** Modelled from the spec: the allocation primitive of the array
    runtime ([zerosLike]); a new buffer of zeros. *)
Definition zeros_like (t : Tensor) : M Tensor :=
  fun h =>
    let k := fresh (dom h) in
    Ok (mkTensor k (sizes t) (is_cuda t) (scalar_type t),
        <[k := replicate (Z.to_nat (numel t)) zero]> h).

(** Modelled from the spec: the whole-array copy [dst.copy_(src)] of the
    array runtime, between tensors of one element count. *)
Definition copy_ (dst src : Tensor) : M unit :=
  fun h => Ok (tt, <[storage dst := data h src]> h).

(** Modelled from the spec: the elementwise map of the array runtime
    ([CUDA_tensor_apply2]); [op] is applied at each position to the
    element of [a] and to the element of [b], which it may overwrite. *)
Definition CUDA_tensor_apply2 (a b : Tensor) (op : float -> float -> float)
  : M unit :=
  fun h => Ok (tt, <[storage b := zip_with op (data h a) (data h b)]> h).

(** Modelled from the spec: the elementwise product [a * b] of the array
    runtime; a new tensor shaped like the operands. *)
Definition mul (a b : Tensor) : M Tensor :=
  fun h =>
    let k := fresh (dom h) in
    Ok (mkTensor k (sizes b) (is_cuda b) (scalar_type b),
        <[k := zip_with fmul (data h a) (data h b)]> h).

(** ** The operators *)

(** [float inv_scale = 1.0f / scale;] *)
Definition inv_scale_of (scale : double) : float :=
  float_of_double (ddiv (double_of_float one) scale).

(** The body of the device lambda of the forward operator. *)
Definition forward_kernel (scale : double) (inv_scale : float)
    (zero_point quant_min quant_max : Z) (input_val : float) : float :=
  float_of_double
    (dmul
       (double_of_float
          (fsub
             (fminf (float_of_int64 quant_max)
                (fmaxf (float_of_int64 quant_min)
                   (roundf (fadd (fmul input_val inv_scale)
                              (float_of_int64 zero_point)))))
             (float_of_int64 zero_point)))
       scale).

Definition fake_quantize_per_tensor_affine_cuda
    (self : Tensor) (scale : double)
    (zero_point quant_min quant_max quant_delay iter : Z) : M Tensor :=
  TORCH_CHECK (is_cuda self) UnsupportedDevice ;;
  TORCH_CHECK (bool_decide (scalar_type self = Float)) UnsupportedDtype ;;
  throw_if (quant_min >? quant_max) InvalidRange ;;
  throw_if (zero_point <? 0) InvalidZeroPoint ;;
  throw_if (quant_delay <? 0) InvalidDelay ;;
  throw_if (negb (quant_delay =? 0) && (iter <? 0)) InvalidIter ;;
  do Y <- empty_like self ;
  if (quant_delay >? 0) && (iter <=? quant_delay) then
    copy_ Y self ;;
    ret Y
  else
    let inv_scale := inv_scale_of scale in
    CUDA_tensor_apply2 self Y
      (fun input_val _ =>
         forward_kernel scale inv_scale zero_point quant_min quant_max
           input_val) ;;
    ret Y.

(** The rounded quantized value [Xq] of the backward lambda. *)
Definition quantized (inv_scale : float) (zero_point : Z)
    (input_val : float) : float :=
  roundf (fadd (fmul input_val inv_scale) (float_of_int64 zero_point)).

(** The body of the device lambda of the backward operator. *)
Definition backward_kernel (inv_scale : float)
    (zero_point quant_min quant_max : Z) (input_val : float) : float :=
  let Xq := quantized inv_scale zero_point input_val in
  float_of_bool
    (fge Xq (float_of_int64 quant_min) && fle Xq (float_of_int64 quant_max)).

Definition fake_quantize_per_tensor_affine_backward_cuda
    (dY X : Tensor) (scale : double)
    (zero_point quant_min quant_max quant_delay iter : Z) : M Tensor :=
  TORCH_CHECK (is_cuda X) UnsupportedDevice ;;
  TORCH_CHECK (bool_decide (scalar_type X = Float)) UnsupportedDtype ;;
  throw_if (quant_min >? quant_max) InvalidRange ;;
  throw_if (zero_point <? 0) InvalidZeroPoint ;;
  throw_if (quant_delay <? 0) InvalidDelay ;;
  if numel X <=? 0 then ret X
  else
    throw_if (negb (numel X =? numel dY)) ShapeMismatch ;;
    throw_if (negb (quant_delay =? 0) && (iter <? 0)) InvalidIter ;;
    do dX <- zeros_like dY ;
    if (quant_delay >? 0) && (iter <=? quant_delay) then
      copy_ dX dY ;;
      ret dX
    else
      let inv_scale := inv_scale_of scale in
      do mask <- empty_like dY ;
      CUDA_tensor_apply2 X mask
        (fun input_val _ =>
           backward_kernel inv_scale zero_point quant_min quant_max
             input_val) ;;
      do dX <- mul mask dY ;
      ret dX.

End Operators.

(** ** What the specification says, in its own words *)

(** [clamp(v, lo, hi)] of the specification, on [float]. *)
Definition clamp (v lo hi : float) : float := fminf hi (fmaxf lo v).

(** [(q - zero_point) * scale] for a quantized level [q], in the
    arithmetic of the operator. *)
Definition dequantize (scale : double) (zero_point : Z) (q : float) : float :=
  float_of_double (dmul (double_of_float (fsub q (float_of_int64 zero_point))) scale).

(** [q = clamp(round(x * (1/scale) + zero_point), quant_min, quant_max)],
    [y = (q - zero_point) * scale]. *)
Definition spec_forward_value (scale : double)
    (zero_point quant_min quant_max : Z) (x : float) : float :=
  let q := clamp (roundf (fadd (fmul x (inv_scale_of scale))
                            (float_of_int64 zero_point)))
             (float_of_int64 quant_min) (float_of_int64 quant_max) in
  dequantize scale zero_point q.

(** [quant_min <= round(x * (1/scale) + zero_point) <= quant_max]. *)
Definition in_range (scale : double) (zero_point quant_min quant_max : Z)
    (x : float) : bool :=
  let q := roundf (fadd (fmul x (inv_scale_of scale))
                     (float_of_int64 zero_point)) in
  fle (float_of_int64 quant_min) q && fle q (float_of_int64 quant_max).

(** The indicator [m] of the straight-through estimator. *)
Definition spec_mask (scale : double) (zero_point quant_min quant_max : Z)
    (x : float) : float :=
  if in_range scale zero_point quant_min quant_max x then one else zero.

(** The parameter validator of the specification. *)
Definition validate (quant_min quant_max zero_point quant_delay iter : Z)
  : option Error :=
  if quant_min >? quant_max then Some InvalidRange
  else if zero_point <? 0 then Some InvalidZeroPoint
  else if quant_delay <? 0 then Some InvalidDelay
  else if negb (quant_delay =? 0) && (iter <? 0) then Some InvalidIter
  else None.

(** The warm-up window. *)
Definition warm_up (quant_delay iter : Z) : bool :=
  (quant_delay >? 0) && (iter <=? quant_delay).

(** The tensor is one the operators accept: on the device, of dtype
    [Float]. *)
Definition supported (t : Tensor) : Prop :=
  is_cuda t = true /\ scalar_type t = Float.

(** ** The state the operators leave behind *)

(** The first three checks of the validator, which the backward operator
    runs before it looks at the element counts. *)
Definition validate_quant (quant_min quant_max zero_point quant_delay : Z)
  : option Error :=
  if quant_min >? quant_max then Some InvalidRange
  else if zero_point <? 0 then Some InvalidZeroPoint
  else if quant_delay <? 0 then Some InvalidDelay
  else None.

(** The heap after the forward operator has run to its end. *)
Definition forward_heap (uninit : nat -> float) (self : Tensor)
    (scale : double) (zero_point quant_min quant_max quant_delay iter : Z)
    (h : Heap) : Heap :=
  let k := fresh (dom h) in
  let h1 := <[k := uninit <$> seq 0 (Z.to_nat (numel self))]> h in
  if warm_up quant_delay iter then <[k := data h1 self]> h1
  else
    <[k := zip_with
             (fun x _ => forward_kernel scale (inv_scale_of scale)
                           zero_point quant_min quant_max x)
             (data h1 self) (uninit <$> seq 0 (Z.to_nat (numel self)))]> h1.

(** The heap after the backward operator has run to its end. *)
Definition backward_heap (uninit : nat -> float) (dY X : Tensor)
    (scale : double) (zero_point quant_min quant_max quant_delay iter : Z)
    (h : Heap) : Tensor * Heap :=
  let k := fresh (dom h) in
  let h1 := <[k := replicate (Z.to_nat (numel dY)) zero]> h in
  if warm_up quant_delay iter then (like k dY, <[k := data h1 dY]> h1)
  else
    let k2 := fresh (dom h1) in
    let h2 := <[k2 := uninit <$> seq 0 (Z.to_nat (numel dY))]> h1 in
    let h3 :=
      <[k2 := zip_with
                (fun x _ => backward_kernel (inv_scale_of scale)
                              zero_point quant_min quant_max x)
                (data h2 X) (uninit <$> seq 0 (Z.to_nat (numel dY)))]> h2 in
    let k3 := fresh (dom h3) in
    (like k3 dY,
     <[k3 := zip_with fmul (data h3 (like k2 dY)) (data h3 dY)]> h3).

(** ** Deciding numerical equality *)

(** Numerical equality, decided. *)
Definition same_valueb (x y : spec_float) : bool :=
  match x, y with
  | S754_zero _, S754_zero _ => true
  | S754_infinity s, S754_infinity s' => Bool.eqb s s'
  | S754_nan, S754_nan => true
  | S754_finite s m e, S754_finite s' m' e' =>
      Bool.eqb s s' && Pos.eqb m m' && (e =? e')
  | _, _ => false
  end.

(** ** Auxiliary notions for the rounding proofs *)

(** The number of binary digits of [p]. *)
Definition digits (p : positive) : Z := Zpos (digits2_pos p).

(** Where the bits shifted out, [rem] below [2^k], lie with respect to the
    half [2^(k-1)]. *)
Definition loc_ok (k rem : Z) (r s : bool) : Prop :=
  match r, s with
  | false, false => rem = 0
  | false, true => 0 < rem /\ 2 * rem < 2 ^ k
  | true, false => 2 * rem = 2 ^ k
  | true, true => 2 ^ k < 2 * rem
  end.

(** Round to nearest, ties to even, of [m1 + rem / 2^n]. *)
Definition rne (m1 rem n : Z) : Z :=
  if 2 * rem <? 2 ^ n then m1
  else if 2 ^ n <? 2 * rem then m1 + 1
  else if Z.even m1 then m1 else m1 + 1.

(** The [float] of mantissa [m] and exponent [e], or an infinity when
    [e] is beyond the largest exponent. *)
Definition fin_or_inf (s : bool) (m e : Z) : spec_float :=
  if e <=? 104 then S754_finite s (Z.to_pos m) e else S754_infinity s.

(** What converting the integer [p], with sign [s], to [float] gives:
    [p] scaled to 24 digits when it has fewer, rounded to 24 digits when it
    has more. *)
Definition round24 (s : bool) (p : positive) : spec_float :=
  let d := digits p in
  if d <=? 24 then S754_finite s (Z.to_pos (Zpos p * 2 ^ (24 - d))) (d - 24)
  else
    let n := d - 24 in
    let m' := rne (Zpos p / 2 ^ n) (Zpos p mod 2 ^ n) n in
    if m' =? 2 ^ 24 then fin_or_inf s (2 ^ 23) (n + 1) else fin_or_inf s m' n.

(** An integer that orders the zeros, the infinities and the normal
    numbers of magnitude at least one as the comparison of [float]
    does. *)
Definition okey (f : spec_float) : Z :=
  match f with
  | S754_zero _ | S754_nan => 0
  | S754_infinity s => cond_Zopp s (2 ^ 200)
  | S754_finite s m e => cond_Zopp s (Zpos m * 2 ^ (e + 23))
  end.

(** Zeros, infinities and normal numbers of magnitude at least one. *)
Definition normal24 (f : spec_float) : Prop :=
  match f with
  | S754_nan => False
  | S754_finite _ m e => digits m = 24 /\ -23 <= e <= 104
  | _ => True
  end.

(** The integer that [p] is rounded to. *)
Definition rounded (p : positive) : Z :=
  let d := digits p in
  if d <=? 24 then Zpos p
  else
    let n := d - 24 in
    rne (Zpos p / 2 ^ n) (Zpos p mod 2 ^ n) n * 2 ^ n.

(** The key of the [float] that [p] is converted to. *)
Definition pkey (p : positive) : Z :=
  if rounded p <? 2 ^ 128 then rounded p * 2 ^ 23 else 2 ^ 200.

(** The key of the conversion of an integer. *)
Definition zkey (z : Z) : Z :=
  match z with
  | 0 => 0
  | Zpos p => pkey p
  | Zneg p => - pkey p
  end.

(** The range of [int64_t]. *)
Definition int64 (z : Z) : Prop := - 2 ^ 63 <= z < 2 ^ 63.



(** The errors of the validator. *)
Definition validator_error (e : Error) : Prop :=
  e = InvalidRange \/ e = InvalidZeroPoint \/ e = InvalidDelay \/ e = InvalidIter.

(** ** Concrete tensors and parameters used in the examples *)

Module Scenario.

(** [scale = 0.5]. *)
Definition scale : double := S754_finite false 4503599627370496 (-53).

(** The [float] nearest to 3.3, and 200.0, 3.5, 122.5. *)
Definition x_3_3 : float := S754_finite false 13841203 (-22).
Definition x_200 : float := S754_finite false 13107200 (-16).
Definition y_3_5 : float := S754_finite false 14680064 (-22).
Definition y_122_5 : float := S754_finite false 16056320 (-17).

Definition garbage : nat -> float := fun _ => S754_nan.

(** A two-element input and a gradient of ones, in buffers 0 and 1. *)
Definition X : Tensor := mkTensor 0 [2%nat] true Float.
Definition dY : Tensor := mkTensor 1 [2%nat] true Float.
Definition heap : Heap := <[1%nat := [one; one]]> {[ 0%nat := [x_3_3; x_200] ]}.

(** A zero-element input in buffer 0, a one-element gradient in buffer 1. *)
Definition X0 : Tensor := mkTensor 0 [0%nat] true Float.
Definition dY1 : Tensor := mkTensor 1 [1%nat] true Float.
Definition heap0 : Heap := <[1%nat := [one]]> {[ 0%nat := [] ]}.

End Scenario.

(** A [float] near 80000.0156, and what two runs of the forward operator
    make of it with [scale = 0.01] and the range [0, 2^24 - 1]. *)
Module Drift.
Definition scale : double := S754_finite false 5764607523034235 (-59).
Definition quant_max : Z := 16777215.
Definition x : float := S754_finite false 10240002 (-7).
Definition X : Tensor := mkTensor 0 [1%nat] true Float.
Definition heap : Heap := {[ 0%nat := [x] ]}.

End Drift.

(** An infinite gradient at a saturated position. *)
Module Overflow.
Definition X : Tensor := mkTensor 0 [1%nat] true Float.
Definition dY : Tensor := mkTensor 1 [1%nat] true Float.
Definition heap : Heap :=
  <[1%nat := [S754_infinity false]]> {[ 0%nat := [Scenario.x_200] ]}.

End Overflow.

(** ** The example tensors are supported and well formed *)

Lemma scenario_X_supported : supported Scenario.X.
Proof. split; reflexivity. Qed.

Lemma scenario_X0_supported : supported Scenario.X0.
Proof. split; reflexivity. Qed.

Lemma scenario_X_wf : wf Scenario.heap Scenario.X.
Proof. exists [Scenario.x_3_3; Scenario.x_200]. split; reflexivity. Qed.

Lemma scenario_dY_wf : wf Scenario.heap Scenario.dY.
Proof. exists [one; one]. split; reflexivity. Qed.



Lemma overflow_X_supported : supported Overflow.X.
Proof. split; reflexivity. Qed.

Lemma overflow_X_wf : wf Overflow.heap Overflow.X.
Proof. exists [Scenario.x_200]. split; reflexivity. Qed.

Lemma overflow_dY_wf : wf Overflow.heap Overflow.dY.
Proof. exists [S754_infinity false]. split; reflexivity. Qed.

(** The device lambdas compute what the specification writes. *)
Lemma forward_kernel_spec scale zp qmin qmax x :
  forward_kernel scale (inv_scale_of scale) zp qmin qmax x
  = spec_forward_value scale zp qmin qmax x.
Proof.
  unfold forward_kernel, spec_forward_value, dequantize, clamp. reflexivity.
Qed.

Lemma backward_kernel_spec scale zp qmin qmax x :
  backward_kernel (inv_scale_of scale) zp qmin qmax x
  = spec_mask scale zp qmin qmax x.
Proof.
  unfold backward_kernel, spec_mask, in_range, quantized, float_of_bool,
    fge, fle.
  reflexivity.
Qed.

(** ** Heap and list facts *)

Lemma fresh_not_wf (h : Heap) (t : Tensor) :
  wf h t -> storage t <> fresh (dom h).
Proof.
  intros (d & Hd & _) Heq.
  apply (is_fresh (dom h)). rewrite <- Heq.
  apply elem_of_dom. eauto.
Qed.

Lemma data_insert_fresh (h : Heap) (t : Tensor) (l : list float) :
  wf h t -> data (<[fresh (dom h) := l]> h) t = data h t.
Proof.
  intros Hwf. unfold data.
  rewrite lookup_insert_ne; [reflexivity|].
  intros Heq. symmetry in Heq. revert Heq. now apply fresh_not_wf.
Qed.

Lemma data_like_eq (h : Heap) (k : nat) (t : Tensor) (l : list float) :
  data (<[k := l]> h) (like k t) = l.
Proof. unfold data, like. simpl. now rewrite lookup_insert_eq. Qed.

Lemma lookup_insert_fresh (h : Heap) (k : nat) (l : list float) :
  k ∈ dom h -> <[fresh (dom h) := l]> h !! k = h !! k.
Proof.
  intros Hk. apply lookup_insert_ne.
  intros Heq. apply (is_fresh (dom h)). now rewrite Heq.
Qed.

Lemma wf_length (h : Heap) (t : Tensor) :
  wf h t -> length (data h t) = Z.to_nat (numel t).
Proof.
  intros (d & Hd & Hlen). unfold data. rewrite Hd. simpl. lia.
Qed.

Lemma zip_with_const_r {A B C} (f : A -> C) (l : list A) (l' : list B) :
  length l = length l' ->
  zip_with (fun a _ => f a) l l' = f <$> l.
Proof.
  revert l'. induction l as [|a l IH]; intros [|b l']; simpl;
    try discriminate; try reflexivity.
  intros Hlen. f_equal. apply IH. now injection Hlen.
Qed.

Lemma length_uninit (uninit : nat -> float) (n : nat) :
  length (uninit <$> seq 0 n) = n.
Proof. now rewrite length_fmap, length_seq. Qed.

(** ** The control flow of the two operators *)

Lemma forward_run uninit self scale zp qmin qmax delay iter (h : Heap) :
  supported self ->
  fake_quantize_per_tensor_affine_cuda uninit self scale zp qmin qmax delay iter h =
  match validate qmin qmax zp delay iter with
  | Some e => Throw e
  | None =>
      Ok (like (fresh (dom h)) self,
          forward_heap uninit self scale zp qmin qmax delay iter h)
  end.
Proof.
  intros [Hc Hf].
  unfold fake_quantize_per_tensor_affine_cuda, validate, forward_heap, warm_up.
  unfold TORCH_CHECK, throw_if, bind, throw, ret.
  rewrite Hc, Hf. simpl.
  destruct (qmin >? qmax); [reflexivity|].
  destruct (zp <? 0); [reflexivity|].
  destruct (delay <? 0); [reflexivity|].
  destruct (negb (delay =? 0) && (iter <? 0)); [reflexivity|].
  simpl.
  destruct ((delay >? 0) && (iter <=? delay)); simpl.
  - reflexivity.
  - unfold CUDA_tensor_apply2, like. simpl. repeat f_equal.
    unfold data. simpl. now rewrite lookup_insert_eq.
Qed.

Lemma backward_run uninit dY X scale zp qmin qmax delay iter (h : Heap) :
  supported X ->
  fake_quantize_per_tensor_affine_backward_cuda uninit dY X scale zp qmin qmax
    delay iter h =
  match validate_quant qmin qmax zp delay with
  | Some e => Throw e
  | None =>
      if numel X <=? 0 then Ok (X, h)
      else if negb (numel X =? numel dY) then Throw ShapeMismatch
      else if negb (delay =? 0) && (iter <? 0) then Throw InvalidIter
      else Ok (backward_heap uninit dY X scale zp qmin qmax delay iter h)
  end.
Proof.
  intros [Hc Hf].
  unfold fake_quantize_per_tensor_affine_backward_cuda, validate_quant,
    backward_heap, warm_up.
  unfold TORCH_CHECK, throw_if, bind, throw, ret.
  rewrite Hc, Hf. simpl.
  destruct (qmin >? qmax); [reflexivity|].
  destruct (zp <? 0); [reflexivity|].
  destruct (delay <? 0); [reflexivity|].
  destruct (numel X <=? 0); [reflexivity|].
  destruct (negb (numel X =? numel dY)); [reflexivity|].
  destruct (negb (delay =? 0) && (iter <? 0)); [reflexivity|].
  simpl.
  destruct ((delay >? 0) && (iter <=? delay)); simpl.
  - reflexivity.
  - unfold CUDA_tensor_apply2, mul, like. simpl. repeat f_equal;
      unfold data; simpl; now rewrite lookup_insert_eq.
Qed.

Lemma validate_split qmin qmax zp delay iter :
  validate qmin qmax zp delay iter =
  match validate_quant qmin qmax zp delay with
  | Some e => Some e
  | None => if negb (delay =? 0) && (iter <? 0) then Some InvalidIter else None
  end.
Proof.
  unfold validate, validate_quant.
  destruct (qmin >? qmax); [reflexivity|].
  destruct (zp <? 0); [reflexivity|].
  destruct (delay <? 0); reflexivity.
Qed.

Lemma validate_quant_None qmin qmax zp delay :
  validate_quant qmin qmax zp delay = None <->
  qmin <= qmax /\ 0 <= zp /\ 0 <= delay.
Proof.
  unfold validate_quant.
  destruct (Z.gtb_spec qmin qmax); [split; [discriminate | lia]|].
  destruct (Z.ltb_spec zp 0); [split; [discriminate | lia]|].
  destruct (Z.ltb_spec delay 0); [split; [discriminate | lia]|].
  split; [lia | reflexivity].
Qed.

Lemma validate_None qmin qmax zp delay iter :
  validate qmin qmax zp delay iter = None <->
  qmin <= qmax /\ 0 <= zp /\ 0 <= delay /\ (delay = 0 \/ 0 <= iter).
Proof.
  rewrite validate_split.
  destruct (validate_quant qmin qmax zp delay) eqn:E.
  - split; [discriminate|]. intros (H1 & H2 & H3 & _).
    assert (validate_quant qmin qmax zp delay = None) as E'
      by (apply validate_quant_None; lia).
    congruence.
  - apply validate_quant_None in E.
    destruct (Z.eqb_spec delay 0), (Z.ltb_spec iter 0); simpl;
      (split; [intros; try discriminate; lia | intros; try reflexivity; lia]).
Qed.

Lemma warm_up_true delay iter :
  warm_up delay iter = true <-> 0 < delay /\ iter <= delay.
Proof. unfold warm_up. rewrite andb_true_iff. lia. Qed.

Lemma warm_up_false delay iter :
  0 <= delay ->
  warm_up delay iter = false <-> delay = 0 \/ delay < iter.
Proof. unfold warm_up. rewrite andb_false_iff. lia. Qed.

Lemma forward_Ok_supported uninit self scale zp qmin qmax delay iter
    (h : Heap) r :
  fake_quantize_per_tensor_affine_cuda uninit self scale zp qmin qmax delay
    iter h = Ok r ->
  supported self.
Proof.
  unfold fake_quantize_per_tensor_affine_cuda, supported.
  unfold TORCH_CHECK, throw_if, bind, throw, ret.
  destruct (is_cuda self); simpl; [|discriminate].
  destruct (bool_decide_reflect (scalar_type self = Float)); simpl;
    [auto | discriminate].
Qed.

Lemma backward_Ok_supported uninit dY X scale zp qmin qmax delay iter
    (h : Heap) r :
  fake_quantize_per_tensor_affine_backward_cuda uninit dY X scale zp qmin qmax
    delay iter h = Ok r ->
  supported X.
Proof.
  unfold fake_quantize_per_tensor_affine_backward_cuda, supported.
  unfold TORCH_CHECK, throw_if, bind, throw, ret.
  destruct (is_cuda X); simpl; [|discriminate].
  destruct (bool_decide_reflect (scalar_type X = Float)); simpl;
    [auto | discriminate].
Qed.

(** The output buffer of the forward operator. *)
Lemma forward_heap_data uninit self scale zp qmin qmax delay iter (h : Heap) :
  wf h self ->
  data (forward_heap uninit self scale zp qmin qmax delay iter h)
       (like (fresh (dom h)) self) =
  if warm_up delay iter then data h self
  else forward_kernel scale (inv_scale_of scale) zp qmin qmax <$> data h self.
Proof.
  intros Hwf. unfold forward_heap.
  destruct (warm_up delay iter).
  - rewrite data_like_eq.
    now apply data_insert_fresh.
  - rewrite data_like_eq.
    rewrite data_insert_fresh by assumption.
    apply zip_with_const_r.
    rewrite length_uninit. now apply wf_length.
Qed.

(** Buffers that were there before the forward operator ran. *)
Lemma forward_heap_frame uninit self scale zp qmin qmax delay iter (h : Heap) k :
  k ∈ dom h ->
  forward_heap uninit self scale zp qmin qmax delay iter h !! k = h !! k.
Proof.
  intros Hk. unfold forward_heap.
  assert (fresh (dom h) <> k) as Hne
    by (intros Heq; apply (is_fresh (dom h)); now rewrite Heq).
  destruct (warm_up delay iter); now rewrite !lookup_insert_ne.
Qed.

Lemma dom_insert_mono (h : Heap) (k k' : nat) (l : list float) :
  k ∈ dom h -> k ∈ dom (<[k' := l]> h).
Proof. rewrite dom_insert_L. set_solver. Qed.

Lemma wf_insert_fresh (h : Heap) (t : Tensor) (l : list float) :
  wf h t -> wf (<[fresh (dom h) := l]> h) t.
Proof.
  intros Hwf. destruct Hwf as (d & Hd & Hlen) eqn:E.
  exists d. split; [|assumption].
  rewrite lookup_insert_ne; [assumption|].
  intros Heq. symmetry in Heq. revert Heq. apply fresh_not_wf.
  exists d. auto.
Qed.

(** The gradient buffer of the backward operator. *)
Lemma backward_heap_data uninit dY X scale zp qmin qmax delay iter (h : Heap) :
  wf h X -> wf h dY -> numel X = numel dY ->
  let '(G, h') := backward_heap uninit dY X scale zp qmin qmax delay iter h in
  data h' G =
  if warm_up delay iter then data h dY
  else zip_with fmul
         (backward_kernel (inv_scale_of scale) zp qmin qmax <$> data h X)
         (data h dY).
Proof.
  intros HX HdY Hn. unfold backward_heap.
  destruct (warm_up delay iter).
  - rewrite data_like_eq.
    now apply data_insert_fresh.
  - set (h1 := <[fresh (dom h) := _]> h).
    set (junk := uninit <$> _).
    set (h2 := <[fresh (dom h1) := junk]> h1).
    set (k2 := fresh (dom h1)).
    set (h3 := <[k2 := _]> h2).
    rewrite data_like_eq.
    assert (wf h1 X) as HX1 by now apply wf_insert_fresh.
    assert (wf h1 dY) as HdY1 by now apply wf_insert_fresh.
    assert (data h2 X = data h X) as EX.
    { unfold h2. rewrite data_insert_fresh by assumption.
      unfold h1. now rewrite data_insert_fresh. }
    assert (data h3 (like k2 dY) =
            backward_kernel (inv_scale_of scale) zp qmin qmax <$> data h X)
      as Emask.
    { unfold h3. rewrite data_like_eq.
      rewrite EX. apply zip_with_const_r.
      unfold junk. rewrite length_uninit.
      rewrite (wf_length h X) by assumption. now rewrite Hn. }
    assert (data h3 dY = data h dY) as EdY.
    { unfold data, h3, h2, k2.
      rewrite lookup_insert_ne
        by (intros Heq; symmetry in Heq; revert Heq; now apply fresh_not_wf).
      rewrite lookup_insert_ne
        by (intros Heq; symmetry in Heq; revert Heq; now apply fresh_not_wf).
      unfold h1.
      rewrite lookup_insert_ne
        by (intros Heq; symmetry in Heq; revert Heq; now apply fresh_not_wf).
      reflexivity. }
    now rewrite Emask, EdY.
Qed.

(** Buffers that were there before the backward operator ran. *)
Lemma backward_heap_frame uninit dY X scale zp qmin qmax delay iter (h : Heap) k :
  k ∈ dom h ->
  (backward_heap uninit dY X scale zp qmin qmax delay iter h).2 !! k = h !! k.
Proof.
  intros Hk. unfold backward_heap.
  assert (fresh (dom h) <> k) as Hne
    by (intros Heq; apply (is_fresh (dom h)); now rewrite Heq).
  destruct (warm_up delay iter); simpl.
  - now rewrite !lookup_insert_ne.
  - set (h1 := <[fresh (dom h) := _]> h).
    set (junk := uninit <$> _).
    set (h2 := <[fresh (dom h1) := junk]> h1).
    set (h3 := <[fresh (dom h1) := _]> h2).
    assert (k ∈ dom h1) as Hk1 by now apply dom_insert_mono.
    assert (k ∈ dom h2) as Hk2 by now apply dom_insert_mono.
    assert (k ∈ dom h3) as Hk3 by now apply dom_insert_mono.
    rewrite lookup_insert_fresh by assumption.
    unfold h3. rewrite lookup_insert_ne
      by (intros Heq; apply (is_fresh (dom h1)); now rewrite Heq).
    unfold h2. rewrite lookup_insert_fresh by assumption.
    unfold h1. now rewrite lookup_insert_ne.
Qed.

(** The gradient tensor of the backward operator is newly allocated. *)
Lemma backward_heap_fresh uninit dY X scale zp qmin qmax delay iter (h : Heap) :
  let G := (backward_heap uninit dY X scale zp qmin qmax delay iter h).1 in
  (storage G ∉ dom h) /\ sizes G = sizes dY.
Proof.
  unfold backward_heap.
  destruct (warm_up delay iter); simpl.
  - split; [apply is_fresh | reflexivity].
  - split; [|reflexivity].
    set (h1 := <[fresh (dom h) := _]> h).
    set (junk := uninit <$> _).
    set (h2 := <[fresh (dom h1) := junk]> h1).
    set (h3 := <[fresh (dom h1) := _]> h2).
    intros Hin.
    apply (is_fresh (dom h3)).
    unfold h3, h2, h1. now do 3 apply dom_insert_mono.
Qed.

(** ** Rounding: the conversion of integers to [float] is monotone, and
    the clamped value is the conversion of an integer of the range *)

Module Rounding.

(** *** Binary digits *)

Lemma digits_pos p : 1 <= digits p.
Proof. unfold digits. lia. Qed.

Lemma digits_bounds p : 2 ^ (digits p - 1) <= Zpos p < 2 ^ digits p.
Proof.
  unfold digits. induction p as [p IH|p IH|]; simpl digits2_pos.
  - rewrite Pos2Z.inj_succ.
    replace (Z.succ (Zpos (digits2_pos p)) - 1)
      with (Z.succ (Zpos (digits2_pos p) - 1)) by lia.
    rewrite !Z.pow_succ_r by lia. lia.
  - rewrite Pos2Z.inj_succ.
    replace (Z.succ (Zpos (digits2_pos p)) - 1)
      with (Z.succ (Zpos (digits2_pos p) - 1)) by lia.
    rewrite !Z.pow_succ_r by lia. lia.
  - simpl. lia.
Qed.

Lemma digits_unique p k :
  2 ^ (k - 1) <= Zpos p < 2 ^ k -> digits p = k.
Proof.
  intros [Hlo Hhi]. pose proof (digits_bounds p) as [Dlo Dhi].
  pose proof (digits_pos p).
  destruct (Z.lt_trichotomy (digits p) k) as [Hlt|[Heq|Hgt]]; [|assumption|].
  - assert (2 ^ digits p <= 2 ^ (k - 1)) by (apply Z.pow_le_mono_r; lia). lia.
  - assert (k < 0 \/ 0 <= k) as [Hneg|Hnn] by lia.
    + rewrite (Z.pow_neg_r 2 k) in Hhi by assumption. lia.
    + assert (2 ^ k <= 2 ^ (digits p - 1)) by (apply Z.pow_le_mono_r; lia). lia.
Qed.

Lemma digits_mono a b : (a <= b)%positive -> digits a <= digits b.
Proof.
  intros Hab. pose proof (digits_bounds a) as [Alo _].
  pose proof (digits_bounds b) as [_ Bhi]. pose proof (digits_pos b).
  destruct (Z.le_gt_cases (digits a) (digits b)) as [|Hgt]; [assumption|].
  assert (2 ^ digits b <= 2 ^ (digits a - 1)) by (apply Z.pow_le_mono_r; lia).
  lia.
Qed.

(** *** Shifting right with a round bit and a sticky bit *)

Lemma iter_pos_nat {A} (f : A -> A) n x :
  SpecFloat.iter_pos f n x = Nat.iter (Pos.to_nat n) f x.
Proof.
  revert x. induction n as [n IH|n IH|]; intros x; simpl SpecFloat.iter_pos.
  - rewrite !IH, Pos2Nat.inj_xI.
    replace (S (2 * Pos.to_nat n)) with (Pos.to_nat n + Pos.to_nat n + 1)%nat
      by lia.
    now rewrite !Nat.iter_add.
  - rewrite !IH, Pos2Nat.inj_xO.
    replace (2 * Pos.to_nat n)%nat with (Pos.to_nat n + Pos.to_nat n)%nat
      by lia.
    now rewrite Nat.iter_add.
  - reflexivity.
Qed.

Lemma shr_1_nonneg m r s :
  0 <= m ->
  shr_1 (Build_shr_record m r s) = Build_shr_record (m / 2) (Z.odd m) (r || s).
Proof.
  intros Hm. destruct m as [|[p|p|]|p]; try lia; simpl shr_1; f_equal.
  - rewrite Pos2Z.inj_xI. apply Z.div_unique with 1; lia.
  - rewrite Pos2Z.inj_xO. apply Z.div_unique with 0; lia.
Qed.

Lemma shr_iter (p : positive) (k : nat) :
  let mrs := Nat.iter k shr_1 (Build_shr_record (Zpos p) false false) in
  shr_m mrs = Zpos p / 2 ^ Z.of_nat k /\
  loc_ok (Z.of_nat k) (Zpos p mod 2 ^ Z.of_nat k) (shr_r mrs) (shr_s mrs).
Proof.
  induction k as [|k IH].
  - simpl. split; [now rewrite Z.div_1_r | now rewrite Z.mod_1_r].
  - cbn zeta in *. simpl Nat.iter.
    destruct (Nat.iter k shr_1 _) as [m r s]. simpl in IH.
    destruct IH as [Hm Hloc].
    assert (0 < 2 ^ Z.of_nat k) as Hpow by (apply Z.pow_pos_nonneg; lia).
    assert (0 <= m) as Hm0 by (rewrite Hm; apply Z.div_pos; lia).
    rewrite shr_1_nonneg by assumption. simpl.
    rewrite Nat2Z.inj_succ, Z.pow_succ_r by lia.
    rewrite (Z.mul_comm 2).
    split.
    + rewrite <- Z.div_div by lia. now rewrite Hm.
    + rewrite Z.rem_mul_r by lia. rewrite <- Hm.
      pose proof (Z.mod_pos_bound (Zpos p) (2 ^ Z.of_nat k) Hpow) as Hrem.
      set (rem := Zpos p mod 2 ^ Z.of_nat k) in *.
      rewrite (Zmod_odd m).
      unfold loc_ok in *.
      destruct (Z.odd m), r, s; simpl; rewrite ?Z.pow_succ_r by lia; lia.
Qed.

(** *** Rounding to 24 significant bits *)

Lemma rne_round m1 rem n r s :
  0 <= n -> loc_ok n rem r s ->
  round_nearest_even m1 (loc_of_shr_record (Build_shr_record m1 r s))
  = rne m1 rem n.
Proof.
  unfold loc_ok, rne. intros Hn Hloc.
  assert (0 < 2 ^ n) as Hpow by (apply Z.pow_pos_nonneg; lia).
  destruct (Z.ltb_spec (2 * rem) (2 ^ n)), (Z.ltb_spec (2 ^ n) (2 * rem)),
    r, s; simpl; try reflexivity; lia.
Qed.

Lemma fexp_normal d e : -149 <= d + e - 24 -> fexp 24 128 (d + e) = d + e - 24.
Proof. intros H. unfold fexp, emin. lia. Qed.

(** A mantissa of exactly 24 digits is kept as it is. *)
Lemma binary_round_aux_exact s m e :
  digits m = 24 -> -149 <= e ->
  binary_round_aux 24 128 s (Zpos m) e loc_Exact = fin_or_inf s (Zpos m) e.
Proof.
  intros Hd He. unfold digits in Hd.
  unfold binary_round_aux, shr_fexp. simpl Zdigits2. rewrite Hd.
  rewrite fexp_normal by lia.
  replace (24 + e - 24 - e) with 0 by lia. simpl.
  rewrite Hd. rewrite fexp_normal by lia.
  replace (24 + e - 24 - e) with 0 by lia. simpl.
  reflexivity.
Qed.

Lemma div_pow_bounds m n :
  0 <= n -> 2 ^ (23 + n) <= m < 2 ^ (24 + n) ->
  2 ^ 23 <= m / 2 ^ n < 2 ^ 24.
Proof.
  intros Hn [Hlo Hhi].
  assert (0 < 2 ^ n) as Hpow by (apply Z.pow_pos_nonneg; lia).
  rewrite !Z.pow_add_r in * by lia.
  split.
  - apply Z.div_le_lower_bound; lia.
  - apply Z.div_lt_upper_bound; lia.
Qed.

(** A mantissa of [24 + n] digits loses its [n] low bits, and is rounded
    to nearest even. *)
Lemma binary_round_aux_shift s m e n :
  digits m = 24 + n -> 1 <= n -> -149 <= e + n ->
  binary_round_aux 24 128 s (Zpos m) e loc_Exact =
  let m' := rne (Zpos m / 2 ^ n) (Zpos m mod 2 ^ n) n in
  if m' =? 2 ^ 24 then fin_or_inf s (2 ^ 23) (e + n + 1)
  else fin_or_inf s m' (e + n).
Proof.
  intros Hd Hn He.
  pose proof (digits_bounds m) as Hb. rewrite Hd in Hb.
  replace (24 + n - 1) with (23 + n) in Hb by lia.
  pose proof (div_pow_bounds (Zpos m) n ltac:(lia) Hb) as Hm1.
  assert (0 < 2 ^ n) as Hpow by (apply Z.pow_pos_nonneg; lia).
  pose proof (Z.mod_pos_bound (Zpos m) (2 ^ n) Hpow) as Hrem.
  unfold digits in Hd.
  unfold binary_round_aux, shr_fexp at 1. simpl Zdigits2. rewrite Hd.
  rewrite fexp_normal by lia.
  replace (24 + n + e - 24 - e) with n by lia.
  destruct n as [|n'|n']; try lia.
  unfold shr at 1. rewrite iter_pos_nat.
  pose proof (shr_iter m (Pos.to_nat n')) as Hiter. cbn zeta in Hiter.
  rewrite positive_nat_Z in Hiter.
  destruct (Nat.iter (Pos.to_nat n') shr_1 _) as [m1 r s0].
  simpl in Hiter. destruct Hiter as [Hm1eq Hloc].
  simpl shr_m. rewrite (rne_round m1 _ (Zpos n') r s0 ltac:(lia) Hloc).
  rewrite Hm1eq. cbn zeta.
  set (m' := rne _ _ _).
  assert (m' = Zpos m / 2 ^ Zpos n' \/ m' = Zpos m / 2 ^ Zpos n' + 1) as Hm'.
  { unfold m', rne.
    destruct (_ <? _); [auto|]. destruct (_ <? _); [auto|].
    destruct (Z.even _); auto. }
  destruct (Z.eqb_spec m' (2 ^ 24)) as [E|NE].
  - rewrite E. change (2 ^ 24) with 16777216.
    unfold shr_fexp. simpl Zdigits2. unfold fexp, emin.
    match goal with
    | |- context [shr _ _ ?x] => replace x with 1 by lia
    end.
    simpl. unfold fin_or_inf. reflexivity.
  - assert (2 ^ 23 <= m' < 2 ^ 24) as Hr by lia.
    destruct m' as [|q|q]; try lia.
    assert (digits q = 24) as Hq by (apply digits_unique; simpl; lia).
    unfold shr_fexp. simpl Zdigits2. unfold digits in Hq. rewrite Hq.
    rewrite fexp_normal by lia.
    replace (24 + (e + Zpos n') - 24 - (e + Zpos n')) with 0 by lia.
    simpl. reflexivity.
Qed.

(** *** The conversion of an integer to [float] *)

Lemma pos_iter_xO p k : Zpos (Pos.iter xO p k) = Zpos p * 2 ^ Zpos k.
Proof.
  induction k as [|k IH] using Pos.peano_ind.
  - simpl. lia.
  - rewrite Pos.iter_succ, Pos2Z.inj_xO, IH, Pos2Z.inj_succ, Z.pow_succ_r by lia.
    lia.
Qed.

Lemma scaled_bounds p :
  digits p <= 24 ->
  2 ^ 23 <= Zpos p * 2 ^ (24 - digits p) < 2 ^ 24.
Proof.
  intros Hd. pose proof (digits_bounds p) as [Hlo Hhi].
  pose proof (digits_pos p).
  assert (0 < 2 ^ (24 - digits p)) as Hpow by (apply Z.pow_pos_nonneg; lia).
  assert (2 ^ 23 = 2 ^ (digits p - 1) * 2 ^ (24 - digits p)) as ->
    by (rewrite <- Z.pow_add_r by lia; f_equal; lia).
  assert (2 ^ 24 = 2 ^ digits p * 2 ^ (24 - digits p)) as ->
    by (rewrite <- Z.pow_add_r by lia; f_equal; lia).
  split.
  - apply Z.mul_le_mono_nonneg_r; lia.
  - apply Z.mul_lt_mono_pos_r; lia.
Qed.

Lemma binary_round_round24 s p : binary_round 24 128 s p 0 = round24 s p.
Proof.
  unfold binary_round, round24.
  pose proof (digits_pos p) as Hd1. fold (digits p).
  rewrite fexp_normal by lia.
  unfold shl_align.
  destruct (Z.leb_spec (digits p) 24) as [Hle|Hgt].
  - pose proof (scaled_bounds p Hle) as Hb.
    destruct (digits p + 0 - 24 - 0) as [|k|k] eqn:Ek; try lia.
    + assert (digits p = 24) as E24 by lia.
      rewrite binary_round_aux_exact by (assumption || lia).
      unfold fin_or_inf. rewrite E24. simpl. now rewrite Pos.mul_1_r.
    + assert (24 - digits p = Zpos k) as Ek' by lia.
      assert (Zpos (Pos.iter xO p k) = Zpos p * 2 ^ (24 - digits p)) as Em
        by (rewrite Ek'; apply pos_iter_xO).
      rewrite binary_round_aux_exact.
      * unfold fin_or_inf.
        destruct (Z.leb_spec (digits p + 0 - 24) 104); [|lia].
        rewrite Em. f_equal; lia.
      * apply digits_unique. rewrite Em. simpl. exact Hb.
      * lia.
  - destruct (digits p + 0 - 24 - 0) as [|k|k] eqn:Ek; try lia.
    rewrite (binary_round_aux_shift s p 0 (digits p - 24)) by lia.
    cbn zeta. replace (0 + (digits p - 24)) with (digits p - 24) by lia.
    reflexivity.
Qed.

Lemma float_of_int64_eq z :
  float_of_int64 z =
  match z with
  | 0 => S754_zero false
  | Zpos p => round24 false p
  | Zneg p => round24 true p
  end.
Proof.
  unfold float_of_int64, binary_normalize, fprec, femax.
  destruct z; [reflexivity | apply binary_round_round24 ..].
Qed.

(** *** An order-preserving integer key *)

Lemma key_bounds m e :
  digits m = 24 -> -23 <= e <= 104 ->
  2 ^ (e + 46) <= Zpos m * 2 ^ (e + 23) < 2 ^ (e + 47).
Proof.
  intros Hd He. pose proof (digits_bounds m) as Hb. rewrite Hd in Hb.
  change (24 - 1) with 23 in Hb.
  assert (0 < 2 ^ (e + 23)) as Hpow by (apply Z.pow_pos_nonneg; lia).
  assert (2 ^ (e + 46) = 2 ^ 23 * 2 ^ (e + 23)) as ->
    by (rewrite <- Z.pow_add_r by lia; f_equal; lia).
  assert (2 ^ (e + 47) = 2 ^ 24 * 2 ^ (e + 23)) as ->
    by (rewrite <- Z.pow_add_r by lia; f_equal; lia).
  split.
  - apply Z.mul_le_mono_nonneg_r; lia.
  - apply Z.mul_lt_mono_pos_r; lia.
Qed.

Lemma key_range m e :
  digits m = 24 -> -23 <= e <= 104 ->
  0 < Zpos m * 2 ^ (e + 23) < 2 ^ 200.
Proof.
  intros Hd He. pose proof (key_bounds m e Hd He) as [Hlo Hhi].
  assert (0 < 2 ^ (e + 46)) by (apply Z.pow_pos_nonneg; lia).
  assert (2 ^ (e + 47) <= 2 ^ 200) by (apply Z.pow_le_mono_r; lia).
  lia.
Qed.

Lemma key_compare m1 e1 m2 e2 :
  digits m1 = 24 -> -23 <= e1 <= 104 ->
  digits m2 = 24 -> -23 <= e2 <= 104 ->
  match e1 ?= e2 with
  | Lt => Lt
  | Gt => Gt
  | Eq => Pos.compare_cont Eq m1 m2
  end = (Zpos m1 * 2 ^ (e1 + 23) ?= Zpos m2 * 2 ^ (e2 + 23)).
Proof.
  intros Hd1 He1 Hd2 He2.
  pose proof (key_bounds m1 e1 Hd1 He1) as [L1 U1].
  pose proof (key_bounds m2 e2 Hd2 He2) as [L2 U2].
  destruct (Z.compare_spec e1 e2) as [E|Hlt|Hgt].
  - subst e2. change (Pos.compare_cont Eq m1 m2) with (Zpos m1 ?= Zpos m2).
    assert (0 < 2 ^ (e1 + 23)) by (apply Z.pow_pos_nonneg; lia).
    destruct (Z.compare_spec (Zpos m1) (Zpos m2)) as [E|Hlt|Hgt]; symmetry.
    + apply Z.compare_eq_iff. now rewrite E.
    + apply Z.compare_lt_iff. apply Z.mul_lt_mono_pos_r; lia.
    + apply Z.compare_gt_iff. apply Z.mul_lt_mono_pos_r; lia.
  - symmetry. apply Z.compare_lt_iff.
    assert (2 ^ (e1 + 47) <= 2 ^ (e2 + 46)) by (apply Z.pow_le_mono_r; lia).
    lia.
  - symmetry. apply Z.compare_gt_iff.
    assert (2 ^ (e2 + 47) <= 2 ^ (e1 + 46)) by (apply Z.pow_le_mono_r; lia).
    lia.
Qed.

Lemma compare_okey f1 f2 :
  normal24 f1 -> normal24 f2 ->
  SFcompare f1 f2 = Some (okey f1 ?= okey f2).
Proof.
  assert (0 < 2 ^ 200) as Hbig by (apply Z.pow_pos_nonneg; lia).
  unfold normal24, okey.
  destruct f1 as [s1|s1| |s1 m1 e1], f2 as [s2|s2| |s2 m2 e2];
    try contradiction; intros H1 H2;
    repeat match goal with
    | H : digits ?m = 24 /\ _ |- _ =>
        let Hd := fresh "Hd" in let He := fresh "He" in
        destruct H as [Hd He]; pose proof (key_range m _ Hd He)
    end;
    set (big := 2 ^ 200) in *; clearbody big;
    unfold SFcompare.
  9: {
    destruct s1, s2; unfold cond_Zopp; f_equal.
    - rewrite Z.compare_opp, <- (key_compare m2 e2 m1 e1) by assumption.
      rewrite (Z.compare_antisym e1 e2).
      destruct (e1 ?= e2); simpl; try reflexivity.
      change (Pos.compare_cont Eq m1 m2) with (m1 ?= m2)%positive.
      change (Pos.compare_cont Eq m2 m1) with (m2 ?= m1)%positive.
      now rewrite (Pos.compare_antisym m1 m2).
    - symmetry. apply Z.compare_lt_iff. lia.
    - symmetry. apply Z.compare_gt_iff. lia.
    - now apply key_compare. }
  all: try destruct s1; try destruct s2; unfold cond_Zopp; f_equal; symmetry;
    first [ apply Z.compare_eq_iff; lia
          | apply Z.compare_lt_iff; lia
          | apply Z.compare_gt_iff; lia ].
Qed.

(** *** The conversion is monotone *)

Lemma rne_cases m1 rem n : rne m1 rem n = m1 \/ rne m1 rem n = m1 + 1.
Proof.
  unfold rne. destruct (_ <? _); [auto|]. destruct (_ <? _); [auto|].
  destruct (Z.even _); auto.
Qed.

Lemma rne_mono m1 r1 r2 n : r1 <= r2 -> rne m1 r1 n <= rne m1 r2 n.
Proof.
  intros Hr. unfold rne.
  destruct (Z.ltb_spec (2 * r1) (2 ^ n)), (Z.ltb_spec (2 * r2) (2 ^ n)),
    (Z.ltb_spec (2 ^ n) (2 * r1)), (Z.ltb_spec (2 ^ n) (2 * r2)),
    (Z.even m1); lia.
Qed.

(** The facts about [p] with more than 24 digits that the proofs below
    share: with [N = 2^n] the weight of the last bit kept, [p = q N + r]. *)
Lemma long_split p :
  24 < digits p ->
  let n := digits p - 24 in
  let N := 2 ^ n in
  let q := Zpos p / N in
  let r := Zpos p mod N in
  0 < N /\ Zpos p = N * q + r /\ 0 <= r < N /\ 2 ^ 23 <= q < 2 ^ 24 /\
  2 ^ (digits p - 1) = 2 ^ 23 * N /\ 2 ^ digits p = 2 ^ 24 * N.
Proof.
  intros Hd n N q r.
  assert (0 < N) as HN by (apply Z.pow_pos_nonneg; lia).
  pose proof (digits_bounds p) as Hb.
  split; [assumption|].
  split; [apply Z.div_mod; lia|].
  split; [apply Z.mod_pos_bound; assumption|].
  split.
  - apply div_pow_bounds; [lia|].
    replace (23 + n) with (digits p - 1) by lia.
    replace (24 + n) with (digits p) by lia. assumption.
  - unfold N, n. split; rewrite <- Z.pow_add_r by lia; f_equal; lia.
Qed.

Lemma rounded_bounds p : 2 ^ (digits p - 1) <= rounded p <= 2 ^ digits p.
Proof.
  unfold rounded. cbn zeta.
  destruct (Z.leb_spec (digits p) 24) as [Hle|Hgt].
  - pose proof (digits_bounds p). lia.
  - destruct (long_split p Hgt) as (HN & _ & _ & Hq & -> & ->).
    set (N := 2 ^ (digits p - 24)) in *.
    destruct (rne_cases (Zpos p / N) (Zpos p mod N) (digits p - 24)) as [->| ->];
      nia.
Qed.

Lemma rounded_mono a b : (a <= b)%positive -> rounded a <= rounded b.
Proof.
  intros Hab. pose proof (digits_mono a b Hab) as Hd.
  pose proof (digits_pos a). pose proof (digits_pos b).
  assert (digits a < digits b \/ digits a = digits b) as [Hlt|Heq] by lia.
  - pose proof (rounded_bounds a) as [_ Ha].
    pose proof (rounded_bounds b) as [Hb _].
    assert (2 ^ digits a <= 2 ^ (digits b - 1))
      by (apply Z.pow_le_mono_r; lia).
    lia.
  - unfold rounded. cbn zeta. rewrite <- Heq.
    destruct (Z.leb_spec (digits a) 24) as [Hle|Hgt]; [lia|].
    destruct (long_split a Hgt) as (HN & Ea & Hra & Hqa & _).
    assert (24 < digits b) as Hgtb by lia.
    destruct (long_split b Hgtb) as (_ & Eb & Hrb & Hqb & _).
    rewrite <- Heq in Eb, Hrb, Hqb.
    set (n := digits a - 24) in *. set (N := 2 ^ n) in *.
    set (qa := Zpos a / N) in *. set (ra := Zpos a mod N) in *.
    set (qb := Zpos b / N) in *. set (rb := Zpos b mod N) in *.
    apply Z.mul_le_mono_nonneg_r; [lia|].
    assert (qa <= qb) as Hq by (apply Z.div_le_mono; lia).
    assert (qa < qb \/ qa = qb) as [Hqlt|Hqeq] by lia.
    + destruct (rne_cases qa ra n) as [->| ->],
        (rne_cases qb rb n) as [->| ->]; lia.
    + rewrite Hqeq in *. apply rne_mono. nia.
Qed.

Lemma rounded_pos p : 0 < rounded p.
Proof.
  pose proof (rounded_bounds p) as [Hlo _]. pose proof (digits_pos p).
  assert (0 < 2 ^ (digits p - 1)) by (apply Z.pow_pos_nonneg; lia). lia.
Qed.

Lemma pkey_pos p : 0 < pkey p <= 2 ^ 200.
Proof.
  unfold pkey. pose proof (rounded_pos p).
  destruct (Z.ltb_spec (rounded p) (2 ^ 128)); lia.
Qed.

Lemma pkey_mono a b : (a <= b)%positive -> pkey a <= pkey b.
Proof.
  intros Hab. pose proof (rounded_mono a b Hab). unfold pkey.
  destruct (Z.ltb_spec (rounded a) (2 ^ 128)),
    (Z.ltb_spec (rounded b) (2 ^ 128)); lia.
Qed.

Lemma fin_or_inf_key s m e :
  2 ^ 23 <= m < 2 ^ 24 -> 0 <= e ->
  okey (fin_or_inf s m e) =
    cond_Zopp s (if m * 2 ^ e <? 2 ^ 128 then m * 2 ^ e * 2 ^ 23 else 2 ^ 200)
  /\ normal24 (fin_or_inf s m e).
Proof.
  intros Hm He. unfold fin_or_inf.
  assert (0 < 2 ^ e) as Hpow by (apply Z.pow_pos_nonneg; lia).
  destruct (Z.leb_spec e 104) as [Hle|Hgt].
  - assert (2 ^ e <= 2 ^ 104) by (apply Z.pow_le_mono_r; lia).
    destruct (Z.ltb_spec (m * 2 ^ e) (2 ^ 128)) as [_|Hge]; [|nia].
    destruct m as [|q|q]; try lia.
    simpl Z.to_pos. simpl okey. simpl normal24.
    rewrite Z.pow_add_r by lia.
    split; [f_equal; lia|].
    split; [|lia]. apply digits_unique. simpl. lia.
  - assert (2 ^ 105 <= 2 ^ e) by (apply Z.pow_le_mono_r; lia).
    destruct (Z.ltb_spec (m * 2 ^ e) (2 ^ 128)) as [Hlt|_]; [nia|].
    simpl. auto.
Qed.

Lemma round24_key s p :
  okey (round24 s p) = cond_Zopp s (pkey p) /\ normal24 (round24 s p).
Proof.
  unfold round24, pkey, rounded. cbn zeta.
  pose proof (digits_pos p) as Hd1.
  destruct (Z.leb_spec (digits p) 24) as [Hle|Hgt].
  - pose proof (scaled_bounds p Hle) as Hb.
    pose proof (digits_bounds p) as [_ Hhi].
    assert (2 ^ digits p <= 2 ^ 24) by (apply Z.pow_le_mono_r; lia).
    destruct (Z.ltb_spec (Zpos p) (2 ^ 128)) as [_|Hge]; [|lia].
    set (X := Zpos p * 2 ^ (24 - digits p)) in *.
    destruct X as [|q|q] eqn:EX; try lia.
    simpl Z.to_pos. simpl okey. simpl normal24.
    split.
    + f_equal. rewrite <- EX. unfold X.
      rewrite <- Z.mul_assoc, <- Z.pow_add_r by lia.
      do 2 f_equal. lia.
    + split; [|lia]. apply digits_unique. simpl. lia.
  - destruct (long_split p Hgt) as (HN & _ & _ & Hq & _).
    set (n := digits p - 24) in *. set (N := 2 ^ n) in *.
    set (m' := rne (Zpos p / N) (Zpos p mod N) n).
    assert (m' = Zpos p / N \/ m' = Zpos p / N + 1) as Hm'
      by apply rne_cases.
    destruct (Z.eqb_spec m' (2 ^ 24)) as [E|NE].
    + destruct (fin_or_inf_key s (2 ^ 23) (n + 1)) as [Hk Hn]; [lia | lia |].
      split; [|assumption].
      rewrite Hk, E. rewrite Z.pow_add_r by lia. fold N.
      replace (2 ^ 23 * (N * 2 ^ 1)) with (2 ^ 24 * N) by lia.
      reflexivity.
    + destruct (fin_or_inf_key s m' n) as [Hk Hn]; [lia | lia |].
      split; assumption.
Qed.

Lemma float_of_int64_key z :
  okey (float_of_int64 z) = zkey z /\ normal24 (float_of_int64 z).
Proof.
  rewrite float_of_int64_eq. destruct z as [|p|p]; simpl zkey.
  - split; simpl; auto.
  - apply (round24_key false).
  - apply (round24_key true).
Qed.

Lemma zkey_mono a b : a <= b -> zkey a <= zkey b.
Proof.
  intros Hab.
  destruct a as [|a|a], b as [|b|b]; simpl; try lia;
    try pose proof (pkey_pos a); try pose proof (pkey_pos b); try lia.
  - apply pkey_mono. lia.
  - assert (pkey b <= pkey a) by (apply pkey_mono; lia). lia.
Qed.

Lemma zkey_range z : - 2 ^ 200 <= zkey z <= 2 ^ 200.
Proof.
  destruct z as [|p|p]; simpl; try pose proof (pkey_pos p); lia.
Qed.

(** *** Comparison, [fmaxf], [fminf] and [roundf] *)

Lemma flt_okey x y :
  normal24 x -> normal24 y -> flt x y = true -> okey x < okey y.
Proof.
  intros Hx Hy. unfold flt, SFltb. rewrite compare_okey by assumption.
  destruct (Z.compare_spec (okey x) (okey y)); (discriminate || auto).
Qed.

Lemma same_value_refl x : same_value x x.
Proof. now left. Qed.

Lemma same_value_sym x y : same_value x y -> same_value y x.
Proof. intros [->|[Hx Hy]]; [now left | now right]. Qed.

Lemma same_value_trans x y z :
  same_value x y -> same_value y z -> same_value x z.
Proof.
  intros [->|[Hx Hy]] [<-|[Hy' Hz]]; try (now left); try (now right).
Qed.

Lemma same_value_zero s1 s2 : same_value (S754_zero s1) (S754_zero s2).
Proof. now right. Qed.

Lemma same_value_okey x y : same_value x y -> okey x = okey y.
Proof.
  intros [->|[Hx Hy]]; [reflexivity|].
  destruct x, y; try discriminate. reflexivity.
Qed.

Lemma same_value_normal24 x y : same_value x y -> normal24 y -> normal24 x.
Proof.
  intros [->|[Hx Hy]]; [auto|]. destruct x; try discriminate. simpl. auto.
Qed.

Lemma roundf_cases v :
  roundf v = S754_nan \/
  (exists s, roundf v = S754_infinity s) \/
  (exists n, same_value (roundf v) (float_of_int64 n)).
Proof.
  destruct v as [s|s| |s m e]; simpl.
  - right. right. exists 0. apply same_value_zero.
  - right. left. now exists s.
  - now left.
  - right. right. exists (cond_Zopp s (round_half_away m e)).
    unfold float_of_int64, binary_normalize.
    destruct (cond_Zopp s (round_half_away m e));
      [apply same_value_zero | apply same_value_refl ..].
Qed.

Lemma fmaxf_cases x y :
  is_nan x = false ->
  fmaxf x y = x \/
  (is_zero x = true /\ is_zero (fmaxf x y) = true) \/
  (fmaxf x y = y /\ flt x y = true /\ is_nan y = false).
Proof.
  intros Hx. unfold fmaxf. rewrite Hx.
  destruct (is_nan y) eqn:Hy; [now left|].
  destruct x as [sx|sx| |sx mx ex], y as [sy|sy| |sy my ey];
    try discriminate;
    try (right; left; now split);
    (destruct (flt _ _) eqn:E; [right; right; auto | now left]).
Qed.

Lemma fminf_cases x y :
  is_nan x = false ->
  fminf x y = x \/
  (is_zero x = true /\ is_zero (fminf x y) = true) \/
  (fminf x y = y /\ flt y x = true /\ is_nan y = false).
Proof.
  intros Hx. unfold fminf. rewrite Hx.
  destruct (is_nan y) eqn:Hy; [now left|].
  destruct x as [sx|sx| |sx mx ex], y as [sy|sy| |sy my ey];
    try discriminate;
    try (right; left; now split);
    (destruct (flt _ _) eqn:E; [right; right; auto | now left]).
Qed.

Lemma normal24_not_nan x : normal24 x -> is_nan x = false.
Proof. destruct x; simpl; (contradiction || reflexivity). Qed.

Lemma zero_same_value x y :
  is_zero x = true -> is_zero y = true -> same_value y x.
Proof. intros Hx Hy. now right. Qed.

(** The clamped, rounded value is the conversion of an integer of the
    quantization range. *)
Lemma clamp_on_grid v qmin qmax :
  qmin <= qmax ->
  exists q, qmin <= q <= qmax /\
    same_value (clamp (roundf v) (float_of_int64 qmin) (float_of_int64 qmax))
      (float_of_int64 q).
Proof.
  intros Hq. unfold clamp.
  destruct (float_of_int64_key qmin) as [KA NA].
  destruct (float_of_int64_key qmax) as [KB NB].
  set (A := float_of_int64 qmin) in *. set (B := float_of_int64 qmax) in *.
  set (r := roundf v).
  destruct (fminf_cases B (fmaxf A r) (normal24_not_nan B NB))
    as [E|[[ZB ZC]|(E & LtB & _)]].
  - exists qmax. rewrite E. split; [lia | apply same_value_refl].
  - exists qmax. split; [lia | now apply zero_same_value].
  - rewrite E.
    destruct (fmaxf_cases A r (normal24_not_nan A NA))
      as [E'|[[ZA ZC]|(E' & LtA & Nr)]].
    + exists qmin. rewrite E'. split; [lia | apply same_value_refl].
    + exists qmin. split; [lia | now apply zero_same_value].
    + rewrite E' in *.
      pose proof (zkey_range qmin) as RA. pose proof (zkey_range qmax) as RB.
      destruct (roundf_cases v) as [En|[[s Ei]|[n Hn]]];
        [fold r in En | fold r in Ei | fold r in Hn].
      * rewrite En in Nr. discriminate.
      * assert (normal24 r) as Nr' by (rewrite Ei; exact I).
        pose proof (flt_okey A r NA Nr' LtA) as H1.
        pose proof (flt_okey r B Nr' NB LtB) as H2.
        rewrite Ei in H1, H2. destruct s; simpl in H1, H2; lia.
      * destruct (float_of_int64_key n) as [Kn Nn].
        assert (normal24 r) as Nr' by (eapply same_value_normal24; eauto).
        pose proof (flt_okey A r NA Nr' LtA) as H1.
        pose proof (flt_okey r B Nr' NB LtB) as H2.
        rewrite (same_value_okey _ _ Hn), Kn in H1, H2.
        exists n. split; [|assumption].
        split.
        -- destruct (Z.le_gt_cases qmin n) as [|Hlt]; [assumption|].
           pose proof (zkey_mono n qmin ltac:(lia)). lia.
        -- destruct (Z.le_gt_cases n qmax) as [|Hlt]; [assumption|].
           pose proof (zkey_mono qmax n ltac:(lia)). lia.
Qed.

(** *** The operations agree on zeros of either sign *)

Ltac zeros H :=
  destruct H as [->|[?Hx ?Hy]]; [apply same_value_refl|];
  repeat match goal with
         | Hz : is_zero ?x = true |- _ =>
             destruct x; try discriminate Hz; clear Hz
         end.

Lemma fsub_same_value x x' y :
  same_value x x' -> same_value (fsub x y) (fsub x' y).
Proof.
  intros H. zeros H.
  destruct y as [sy|sy| |sy my ey]; simpl;
    try apply same_value_refl.
  repeat match goal with |- context [match ?b with _ => _ end] =>
    destruct b end; apply same_value_zero.
Qed.


Lemma SFmul_same_value prec emax x x' y :
  same_value x x' ->
  same_value (SFmul prec emax x y) (SFmul prec emax x' y).
Proof.
  intros H. zeros H.
  destruct y as [sy|sy| |sy my ey]; simpl;
    try apply same_value_refl; apply same_value_zero.
Qed.

Lemma double_of_float_same_value x x' :
  same_value x x' -> same_value (double_of_float x) (double_of_float x').
Proof. intros H. zeros H. apply same_value_zero. Qed.

Lemma float_of_double_same_value x x' :
  same_value x x' -> same_value (float_of_double x) (float_of_double x').
Proof. intros H. zeros H. apply same_value_zero. Qed.

Lemma roundf_same_value x x' :
  same_value x x' -> same_value (roundf x) (roundf x').
Proof. intros H. zeros H. apply same_value_zero. Qed.


Lemma fminf_same_value x y y' :
  same_value y y' -> same_value (fminf x y) (fminf x y').
Proof.
  intros H. zeros H.
  destruct x as [sx|sx| |sx mx ex]; unfold fminf; simpl;
    try apply same_value_zero;
    destruct sx; simpl; apply same_value_refl || apply same_value_zero.
Qed.

Lemma dequantize_same_value scale zp c c' :
  same_value c c' ->
  same_value (dequantize scale zp c) (dequantize scale zp c').
Proof.
  intros H. unfold dequantize, dmul.
  apply float_of_double_same_value.
  apply (SFmul_same_value dprec demax).
  apply double_of_float_same_value, fsub_same_value, H.
Qed.

Lemma forward_kernel_eq scale inv zp qmin qmax x :
  forward_kernel scale inv zp qmin qmax x =
  dequantize scale zp
    (clamp (roundf (fadd (fmul x inv) (float_of_int64 zp)))
       (float_of_int64 qmin) (float_of_int64 qmax)).
Proof. unfold forward_kernel, dequantize, clamp. reflexivity. Qed.




(** *** Multiplication by one *)

Lemma loc_ok_exact k r s : 0 <= k -> loc_ok k 0 r s -> r = false /\ s = false.
Proof.
  intros Hk. assert (0 < 2 ^ k) by (apply Z.pow_pos_nonneg; lia).
  unfold loc_ok. destruct r, s; intros; (lia || auto).
Qed.

Lemma shr_exact (p k : positive) (q : Z) :
  Zpos p = q * 2 ^ Zpos k ->
  SpecFloat.iter_pos shr_1 k (Build_shr_record (Zpos p) false false)
  = Build_shr_record q false false.
Proof.
  intros Ep. rewrite iter_pos_nat.
  pose proof (shr_iter p (Pos.to_nat k)) as Hiter.
  cbv zeta in Hiter.
  destruct (Nat.iter (Pos.to_nat k) shr_1 _) as [m1 r s0].
  rewrite positive_nat_Z, Ep in Hiter.
  rewrite Z.div_mul, Z.mod_mul in Hiter
    by (apply Z.pow_nonzero; lia).
  destruct Hiter as [Hm Hloc]. cbn [shr_m shr_r shr_s] in Hm, Hloc.
  apply loc_ok_exact in Hloc; [|lia]. destruct Hloc as [-> ->].
  congruence.
Qed.

Lemma fmul_one_valid g : fvalid g = true -> fmul one g = g.
Proof.
  destruct g as [s|s| |s m e]; [reflexivity | reflexivity | reflexivity |].
  unfold fvalid, valid_binary, bounded, canonical_mantissa, fprec, femax.
  rewrite andb_true_iff, Z.eqb_eq, Z.leb_le. fold (digits m).
  intros [Hcan He].
  unfold fmul, one, SFmul, fprec, femax. cbn [xorb].
  assert (Zpos (8388608 * m) = Zpos m * 2 ^ 23) as Eprod by lia.
  assert (digits (8388608 * m) = 23 + digits m) as Hd.
  { apply digits_unique. rewrite Eprod.
    pose proof (digits_bounds m) as [Hlo Hhi]. pose proof (digits_pos m).
    assert (2 ^ (23 + digits m - 1) = 2 ^ (digits m - 1) * 2 ^ 23) as ->
      by (rewrite <- Z.pow_add_r by lia; f_equal; lia).
    assert (2 ^ (23 + digits m) = 2 ^ digits m * 2 ^ 23) as ->
      by (rewrite <- Z.pow_add_r by lia; f_equal; lia).
    lia. }
  unfold binary_round_aux, shr_fexp at 1.
  change (Zdigits2 (Zpos (8388608 * m))) with (digits (8388608 * m)).
  rewrite Hd.
  replace (23 + digits m + (-23 + e)) with (digits m + e) by lia.
  rewrite Hcan. replace (e - (-23 + e)) with 23 by lia.
  unfold shr at 1. cbn [shr_record_of_loc].
  rewrite (shr_exact (8388608 * m) 23 (Zpos m) Eprod).
  cbn [loc_of_shr_record round_nearest_even shr_m].
  unfold shr_fexp. change (Zdigits2 (Zpos m)) with (digits m).
  replace (digits m + (-23 + e + 23)) with (digits m + e) by lia.
  rewrite Hcan. replace (e - (-23 + e + 23)) with 0 by lia.
  cbn [shr shr_m shr_record_of_loc].
  replace (-23 + e + 23) with e by lia.
  destruct (Z.leb_spec e (128 - 24)); [reflexivity | lia].
Qed.

End Rounding.

(** With valid parameters the forward operator returns. *)
Lemma forward_returns uninit self scale zp qmin qmax delay iter (h : Heap) :
  supported self -> validate qmin qmax zp delay iter = None ->
  fake_quantize_per_tensor_affine_cuda uninit self scale zp qmin qmax delay
    iter h =
  Ok (like (fresh (dom h)) self,
      forward_heap uninit self scale zp qmin qmax delay iter h).
Proof. intros Hs Hv. now rewrite forward_run, Hv. Qed.

(** With valid parameters and conformant, non-empty tensors the backward
    operator returns. *)
Lemma backward_returns uninit dY X scale zp qmin qmax delay iter (h : Heap) :
  supported X -> validate qmin qmax zp delay iter = None ->
  0 < numel X -> numel X = numel dY ->
  fake_quantize_per_tensor_affine_backward_cuda uninit dY X scale zp qmin qmax
    delay iter h =
  Ok (backward_heap uninit dY X scale zp qmin qmax delay iter h).
Proof.
  intros Hs Hv Hpos Hn. rewrite backward_run by assumption.
  rewrite validate_split in Hv.
  destruct (validate_quant qmin qmax zp delay); [discriminate|].
  destruct (negb (delay =? 0) && (iter <? 0)); [discriminate|].
  destruct (Z.leb_spec (numel X) 0); [lia|].
  now rewrite Hn, Z.eqb_refl.
Qed.

(** ** Validation (C4, C5, C10) *)

(** C4, as stated, fails for the backward operator: with a zero-element
    input, [quant_delay = 3] and [iter = -1] the conditions of InvalidIter
    hold, and the call returns normally. *)
Lemma validation_iter_counterexample :
  ~ (fake_quantize_per_tensor_affine_backward_cuda Scenario.garbage
       Scenario.dY1 Scenario.X0 Scenario.scale 10 0 255 3 (-1) Scenario.heap0
     = Throw InvalidIter
     <-> (0 <= 255 /\ 0 <= 10 /\ 0 <= 3 /\ 3 <> 0 /\ -1 < 0)).
Proof.
  rewrite backward_run by apply scenario_X0_supported.
  simpl. intros [_ H]. discriminate H. lia.
Qed.

(** C4 (amended): on a supported tensor each operator reports InvalidRange
    iff [quant_min > quant_max], InvalidZeroPoint iff otherwise
    [zero_point < 0], InvalidDelay iff otherwise [quant_delay < 0]; the
    forward operator reports InvalidIter iff otherwise [quant_delay <> 0]
    and [iter < 0]; the backward operator reports InvalidIter iff moreover
    its input has at least one element and as many as the gradient.  When
    the validator passes the forward operator returns, and the backward
    operator returns or reports ShapeMismatch. *)
Theorem validation_order uninit (self dY X : Tensor) scale zp qmin qmax
    delay iter (h : Heap) :
  supported self -> supported X ->
  let f := fake_quantize_per_tensor_affine_cuda uninit self scale zp qmin
             qmax delay iter h in
  let b := fake_quantize_per_tensor_affine_backward_cuda uninit dY X scale zp
             qmin qmax delay iter h in
  (f = Throw InvalidRange <-> qmin > qmax) /\
  (f = Throw InvalidZeroPoint <-> qmin <= qmax /\ zp < 0) /\
  (f = Throw InvalidDelay <-> qmin <= qmax /\ 0 <= zp /\ delay < 0) /\
  (f = Throw InvalidIter <->
     qmin <= qmax /\ 0 <= zp /\ 0 <= delay /\ delay <> 0 /\ iter < 0) /\
  (b = Throw InvalidRange <-> qmin > qmax) /\
  (b = Throw InvalidZeroPoint <-> qmin <= qmax /\ zp < 0) /\
  (b = Throw InvalidDelay <-> qmin <= qmax /\ 0 <= zp /\ delay < 0) /\
  (b = Throw InvalidIter <->
     qmin <= qmax /\ 0 <= zp /\ 0 <= delay /\
     0 < numel X /\ numel X = numel dY /\ delay <> 0 /\ iter < 0) /\
  (validate qmin qmax zp delay iter = None ->
     (exists r, f = Ok r) /\ ((exists r, b = Ok r) \/ b = Throw ShapeMismatch)).
Proof.
  intros Hself HX f b. subst f b.
  rewrite forward_run, backward_run by assumption.
  unfold validate, validate_quant.
  destruct (Z.gtb_spec qmin qmax);
    [repeat split; intros; try discriminate; try lia|].
  destruct (Z.ltb_spec zp 0);
    [repeat split; intros; try discriminate; try lia|].
  destruct (Z.ltb_spec delay 0);
    [repeat split; intros; try discriminate; try lia|].
  destruct (Z.leb_spec (numel X) 0), (Z.eqb_spec (numel X) (numel dY)),
    (Z.eqb_spec delay 0), (Z.ltb_spec iter 0); simpl;
    repeat split; intros; try discriminate; try lia; eauto.
Qed.

Lemma validation_order_witness :
  supported Scenario.X /\ supported Scenario.X /\
  (fake_quantize_per_tensor_affine_backward_cuda Scenario.garbage Scenario.dY
     Scenario.X Scenario.scale 10 0 255 3 (-1) Scenario.heap
   = Throw InvalidIter <->
   0 <= 255 /\ 0 <= 10 /\ 0 <= 3 /\
   0 < numel Scenario.X /\ numel Scenario.X = numel Scenario.dY /\
   3 <> 0 /\ -1 < 0).
Proof.
  split; [apply scenario_X_supported|].
  split; [apply scenario_X_supported|].
  apply (validation_order Scenario.garbage Scenario.X Scenario.dY Scenario.X
           Scenario.scale 10 0 255 3 (-1) Scenario.heap
           scenario_X_supported scenario_X_supported).
Defined.

(** C5, as stated, fails: a zero-element input with a one-element
    gradient passes the validator, and the call returns the input instead
    of reporting ShapeMismatch. *)
Lemma shape_mismatch_counterexample :
  numel Scenario.X0 <> numel Scenario.dY1 /\
  validate 0 255 10 0 0 = None /\
  fake_quantize_per_tensor_affine_backward_cuda Scenario.garbage
    Scenario.dY1 Scenario.X0 Scenario.scale 10 0 255 0 0 Scenario.heap0
  <> Throw ShapeMismatch.
Proof.
  split; [discriminate|]. split; [reflexivity|].
  rewrite backward_run by apply scenario_X0_supported.
  simpl. discriminate.
Qed.

(** C5 (amended): when the input has at least one element and the
    gradient has another element count, the backward operator reports
    ShapeMismatch and returns no tensor, whatever [iter] is. *)
Theorem shape_mismatch uninit (dY X : Tensor) scale zp qmin qmax delay iter
    (h : Heap) :
  supported X ->
  qmin <= qmax -> 0 <= zp -> 0 <= delay ->
  0 < numel X -> numel X <> numel dY ->
  fake_quantize_per_tensor_affine_backward_cuda uninit dY X scale zp qmin qmax
    delay iter h = Throw ShapeMismatch.
Proof.
  intros HX H1 H2 H3 Hpos Hne.
  rewrite backward_run by assumption.
  assert (validate_quant qmin qmax zp delay = None) as ->
    by (apply validate_quant_None; auto).
  destruct (Z.leb_spec (numel X) 0); [lia|].
  destruct (Z.eqb_spec (numel X) (numel dY)); [contradiction|].
  reflexivity.
Qed.

Lemma shape_mismatch_witness :
  fake_quantize_per_tensor_affine_backward_cuda Scenario.garbage Scenario.dY1
    Scenario.X Scenario.scale 10 0 255 0 0 Scenario.heap
  = Throw ShapeMismatch.
Proof.
  apply (shape_mismatch Scenario.garbage Scenario.dY1 Scenario.X
           Scenario.scale 10 0 255 0 0 Scenario.heap scenario_X_supported);
    [lia | lia | lia | reflexivity | discriminate].
Defined.

(** C10: on a zero-element input the backward operator returns that
    input tensor itself and leaves the heap alone, whatever the element
    count of the gradient and whatever [iter] is. *)
Theorem backward_empty_input uninit (dY X : Tensor) scale zp qmin qmax delay
    iter (h : Heap) :
  supported X ->
  qmin <= qmax -> 0 <= zp -> 0 <= delay ->
  numel X = 0 ->
  fake_quantize_per_tensor_affine_backward_cuda uninit dY X scale zp qmin qmax
    delay iter h = Ok (X, h).
Proof.
  intros HX H1 H2 H3 Hn.
  rewrite backward_run by assumption.
  assert (validate_quant qmin qmax zp delay = None) as ->
    by (apply validate_quant_None; auto).
  rewrite Hn. reflexivity.
Qed.

Lemma backward_empty_input_witness :
  numel Scenario.X0 <> numel Scenario.dY1 /\
  validate 0 255 10 3 (-1) = Some InvalidIter /\
  fake_quantize_per_tensor_affine_backward_cuda Scenario.garbage Scenario.dY1
    Scenario.X0 Scenario.scale 10 0 255 3 (-1) Scenario.heap0
  = Ok (Scenario.X0, Scenario.heap0).
Proof.
  split; [discriminate|]. split; [reflexivity|].
  apply (backward_empty_input Scenario.garbage Scenario.dY1 Scenario.X0
           Scenario.scale 10 0 255 3 (-1) Scenario.heap0
           scenario_X0_supported);
    [lia | lia | lia | reflexivity].
Defined.

(** ** Warm-up (C3) *)

(** C3: inside the warm-up window ([0 < quant_delay], [0 <= iter <=
    quant_delay]) and with valid parameters, the forward operator returns
    a tensor whose elements are those of its input, and the backward
    operator, on conformant tensors, one whose elements are those of the
    gradient. *)
Theorem warm_up_copies uninit (self dY X : Tensor) scale zp qmin qmax delay
    iter (h : Heap) :
  supported self -> supported X ->
  wf h self -> wf h X -> wf h dY -> numel X = numel dY ->
  qmin <= qmax -> 0 <= zp ->
  0 < delay -> 0 <= iter <= delay ->
  (exists Y h',
     fake_quantize_per_tensor_affine_cuda uninit self scale zp qmin qmax
       delay iter h = Ok (Y, h') /\
     data h' Y = data h self) /\
  (exists G h',
     fake_quantize_per_tensor_affine_backward_cuda uninit dY X scale zp qmin
       qmax delay iter h = Ok (G, h') /\
     data h' G = data h dY).
Proof.
  intros Hself HX Hwself HwX HwdY Hn Hq Hzp Hd Hi.
  assert (validate qmin qmax zp delay iter = None) as Hv
    by (apply validate_None; lia).
  assert (warm_up delay iter = true) as Hw by (apply warm_up_true; lia).
  split.
  - rewrite forward_run, Hv by assumption.
    eexists _, _. split; [reflexivity|].
    rewrite forward_heap_data by assumption. now rewrite Hw.
  - rewrite backward_run by assumption.
    rewrite validate_split in Hv.
    destruct (validate_quant qmin qmax zp delay); [discriminate|].
    destruct (negb (delay =? 0) && (iter <? 0)); [discriminate|].
    destruct (Z.leb_spec (numel X) 0) as [Hle|Hgt].
    + eexists _, _. split; [reflexivity|].
      pose proof (wf_length h X HwX) as LX.
      pose proof (wf_length h dY HwdY) as LY.
      rewrite <- Hn in LY.
      assert (length (data h X) = 0%nat) as EX by lia.
      assert (length (data h dY) = 0%nat) as EY by lia.
      apply nil_length_inv in EX, EY. congruence.
    + rewrite Hn, Z.eqb_refl. simpl.
      pose proof (backward_heap_data uninit dY X scale zp qmin qmax delay
                    iter h HwX HwdY Hn) as Hdata.
      destruct (backward_heap uninit dY X scale zp qmin qmax delay iter h)
        as [G h'].
      eexists _, _. split; [reflexivity|].
      now rewrite Hdata, Hw.
Qed.

Lemma warm_up_copies_witness :
  (exists Y h',
     fake_quantize_per_tensor_affine_cuda Scenario.garbage Scenario.X
       Scenario.scale 10 0 255 3 2 Scenario.heap = Ok (Y, h') /\
     data h' Y = data Scenario.heap Scenario.X) /\
  (exists G h',
     fake_quantize_per_tensor_affine_backward_cuda Scenario.garbage
       Scenario.dY Scenario.X Scenario.scale 10 0 255 3 2 Scenario.heap
     = Ok (G, h') /\
     data h' G = data Scenario.heap Scenario.dY).
Proof.
  apply (warm_up_copies Scenario.garbage Scenario.X Scenario.dY Scenario.X
           Scenario.scale 10 0 255 3 2 Scenario.heap
           scenario_X_supported scenario_X_supported
           scenario_X_wf scenario_X_wf scenario_dY_wf);
    [reflexivity | lia | lia | lia | lia].
Defined.

(** ** Aliasing and allocation (C8) *)

(** C8, as stated, fails in the zero-element case of the backward
    operator: the tensor returned is the input tensor, whose buffer was
    already in the heap. *)
Lemma fresh_output_counterexample :
  exists G h',
    fake_quantize_per_tensor_affine_backward_cuda Scenario.garbage
      Scenario.dY1 Scenario.X0 Scenario.scale 10 0 255 0 0 Scenario.heap0
    = Ok (G, h') /\
    storage G = storage Scenario.X0 /\
    storage G ∈ dom Scenario.heap0.
Proof.
  exists Scenario.X0, Scenario.heap0.
  split; [|split].
  - rewrite backward_run by apply scenario_X0_supported. reflexivity.
  - reflexivity.
  - apply elem_of_dom. exists []. reflexivity.
Qed.

(** C8 (amended): a call of the forward operator that returns leaves
    every buffer of the heap as it was and returns a tensor on a new buffer
    with the sizes of the input.  A call of the backward operator that
    returns leaves every buffer of the heap as it was; when the input has at
    least one element the tensor returned is on a new buffer, with the sizes
    of the gradient and the element count of the input, and when the input
    has no element the tensor returned is the input tensor itself. *)
Theorem inputs_untouched uninit (self dY X : Tensor) scale zp qmin qmax delay
    iter (h : Heap) :
  (forall Y h',
     fake_quantize_per_tensor_affine_cuda uninit self scale zp qmin qmax
       delay iter h = Ok (Y, h') ->
     (forall k, k ∈ dom h -> h' !! k = h !! k) /\
     (storage Y ∉ dom h) /\ sizes Y = sizes self) /\
  (forall G h',
     fake_quantize_per_tensor_affine_backward_cuda uninit dY X scale zp qmin
       qmax delay iter h = Ok (G, h') ->
     (forall k, k ∈ dom h -> h' !! k = h !! k) /\
     (0 < numel X ->
        (storage G ∉ dom h) /\ sizes G = sizes dY /\ numel G = numel X) /\
     (numel X <= 0 -> G = X /\ h' = h)).
Proof.
  split.
  - intros Y h' Hrun.
    pose proof (forward_Ok_supported _ _ _ _ _ _ _ _ _ _ Hrun) as Hs.
    rewrite forward_run in Hrun by assumption.
    destruct (validate qmin qmax zp delay iter); [discriminate|].
    injection Hrun as <- <-.
    split; [|split].
    + intros k Hk. now apply forward_heap_frame.
    + apply is_fresh.
    + reflexivity.
  - intros G h' Hrun.
    pose proof (backward_Ok_supported _ _ _ _ _ _ _ _ _ _ _ Hrun) as Hs.
    rewrite backward_run in Hrun by assumption.
    destruct (validate_quant qmin qmax zp delay); [discriminate|].
    destruct (Z.leb_spec (numel X) 0) as [Hle|Hgt].
    + injection Hrun as <- <-.
      split; [reflexivity|]. split; [lia | auto].
    + destruct (Z.eqb_spec (numel X) (numel dY)) as [Hn|]; [|discriminate].
      simpl in Hrun.
      destruct (negb (delay =? 0) && (iter <? 0)); [discriminate|].
      injection Hrun as Hrun.
      pose proof (backward_heap_frame uninit dY X scale zp qmin qmax delay
                    iter h) as Hframe.
      pose proof (backward_heap_fresh uninit dY X scale zp qmin qmax delay
                    iter h) as Hfresh.
      rewrite Hrun in Hframe, Hfresh. simpl in Hframe, Hfresh.
      split; [assumption|]. split; [|lia].
      intros _. destruct Hfresh as [Hf Hsz].
      split; [assumption|]. split; [assumption|].
      unfold numel. rewrite Hsz. exact (eq_sym Hn).
Qed.

(** ** The forward transform, element by element (C1) *)

(** C1: with valid parameters and outside the warm-up window, the forward
    operator returns a tensor with as many elements as its input, whose
    element at each position is
    [(clamp(round(x * (1/scale) + zero_point), quant_min, quant_max)
      - zero_point) * scale]
    for the element [x] of the input there, with [1/scale] computed once. *)
Theorem forward_elementwise uninit (self : Tensor) scale zp qmin qmax delay
    iter (h : Heap) :
  supported self -> wf h self ->
  validate qmin qmax zp delay iter = None ->
  delay = 0 \/ delay < iter ->
  exists Y h',
    fake_quantize_per_tensor_affine_cuda uninit self scale zp qmin qmax delay
      iter h = Ok (Y, h') /\
    length (data h' Y) = length (data h self) /\
    forall (i : nat) x,
      data h self !! i = Some x ->
      data h' Y !! i = Some (spec_forward_value scale zp qmin qmax x).
Proof.
  intros Hs Hwf Hv Hw.
  assert (warm_up delay iter = false) as Hw'.
  { apply warm_up_false; [|assumption]. apply validate_None in Hv. lia. }
  rewrite forward_run, Hv by assumption.
  eexists _, _. split; [reflexivity|].
  rewrite forward_heap_data, Hw' by assumption.
  split; [apply length_fmap|].
  intros i x Hx. rewrite list_lookup_fmap, Hx. simpl.
  now rewrite forward_kernel_spec.
Qed.

Lemma forward_elementwise_witness :
  exists Y h',
    fake_quantize_per_tensor_affine_cuda Scenario.garbage Scenario.X
      Scenario.scale 10 0 255 0 0 Scenario.heap = Ok (Y, h') /\
    length (data h' Y) = length (data Scenario.heap Scenario.X) /\
    forall (i : nat) x,
      data Scenario.heap Scenario.X !! i = Some x ->
      data h' Y !! i = Some (spec_forward_value Scenario.scale 10 0 255 x).
Proof.
  apply (forward_elementwise Scenario.garbage Scenario.X Scenario.scale
           10 0 255 0 0 Scenario.heap scenario_X_supported scenario_X_wf);
    [reflexivity | left; reflexivity].
Defined.

Lemma inputs_untouched_witness :
  exists G h',
    fake_quantize_per_tensor_affine_backward_cuda Scenario.garbage
      Scenario.dY Scenario.X Scenario.scale 10 0 255 0 0 Scenario.heap
    = Ok (G, h') /\
    (forall k, k ∈ dom Scenario.heap -> h' !! k = Scenario.heap !! k) /\
    (storage G ∉ dom Scenario.heap).
Proof.
  pose proof (backward_returns Scenario.garbage Scenario.dY Scenario.X
                Scenario.scale 10 0 255 0 0 Scenario.heap
                scenario_X_supported eq_refl eq_refl eq_refl) as Hrun.
  destruct (backward_heap Scenario.garbage Scenario.dY Scenario.X
              Scenario.scale 10 0 255 0 0 Scenario.heap) as [G h'].
  exists G, h'. split; [exact Hrun|].
  destruct (proj2 (inputs_untouched Scenario.garbage Scenario.X Scenario.dY
                     Scenario.X Scenario.scale 10 0 255 0 0 Scenario.heap)
              G h' Hrun) as (Hframe & Hfresh & _).
  split; [exact Hframe|]. apply Hfresh. reflexivity.
Defined.

(** ** The concrete scenario (C9) *)

(** The constants of the scenario are what their names say. *)
Example scenario_constants :
  SFdiv dprec demax (binary_normalize dprec demax 1 0 false)
    (binary_normalize dprec demax 2 0 false) = Scenario.scale /\
  SFdiv dprec demax (binary_normalize dprec demax 1 0 false)
    (binary_normalize dprec demax 100 0 false) = Drift.scale /\
  SFdiv fprec femax (float_of_int64 10240002) (float_of_int64 128) = Drift.x /\
  SFdiv fprec femax (float_of_int64 33) (float_of_int64 10) = Scenario.x_3_3 /\
  float_of_int64 200 = Scenario.x_200 /\
  SFdiv fprec femax (float_of_int64 7) (float_of_int64 2) = Scenario.y_3_5 /\
  SFdiv fprec femax (float_of_int64 245) (float_of_int64 2) = Scenario.y_122_5.
Proof. repeat split; vm_compute; reflexivity. Qed.

(** C9: with [scale = 0.5], [zero_point = 10], the range [0, 255] and no
    delay, the element 3.3 is quantized to 17 and mapped to 3.5, the
    element 200.0 is quantized to 410, clamped to 255 and mapped to 122.5,
    and the mask of the backward operator is 0 at 200.0; so the forward
    operator maps [3.3; 200.0] to [3.5; 122.5] and the backward operator
    maps a gradient of ones to [1; 0]. *)
Theorem concrete_scenario :
  let inv := inv_scale_of Scenario.scale in
  quantized inv 10 Scenario.x_3_3 = float_of_int64 17 /\
  clamp (float_of_int64 17) (float_of_int64 0) (float_of_int64 255)
    = float_of_int64 17 /\
  forward_kernel Scenario.scale inv 10 0 255 Scenario.x_3_3 = Scenario.y_3_5 /\
  quantized inv 10 Scenario.x_200 = float_of_int64 410 /\
  clamp (float_of_int64 410) (float_of_int64 0) (float_of_int64 255)
    = float_of_int64 255 /\
  forward_kernel Scenario.scale inv 10 0 255 Scenario.x_200 = Scenario.y_122_5 /\
  backward_kernel inv 10 0 255 Scenario.x_200 = zero /\
  (exists Y h',
     fake_quantize_per_tensor_affine_cuda Scenario.garbage Scenario.X
       Scenario.scale 10 0 255 0 0 Scenario.heap = Ok (Y, h') /\
     data h' Y = [Scenario.y_3_5; Scenario.y_122_5]) /\
  (exists G h',
     fake_quantize_per_tensor_affine_backward_cuda Scenario.garbage
       Scenario.dY Scenario.X Scenario.scale 10 0 255 0 0 Scenario.heap
     = Ok (G, h') /\
     data h' G = [one; zero]).
Proof.
  intros inv. subst inv.
  repeat match goal with |- _ /\ _ => split end;
    try (vm_compute; reflexivity).
  - rewrite forward_returns by (apply scenario_X_supported || reflexivity).
    eexists _, _. split; [reflexivity|].
    rewrite forward_heap_data by apply scenario_X_wf.
    vm_compute. reflexivity.
  - rewrite backward_returns
      by (apply scenario_X_supported || reflexivity).
    pose proof (backward_heap_data Scenario.garbage Scenario.dY Scenario.X
                  Scenario.scale 10 0 255 0 0 Scenario.heap
                  scenario_X_wf scenario_dY_wf eq_refl) as Hdata.
    destruct (backward_heap Scenario.garbage Scenario.dY Scenario.X
                Scenario.scale 10 0 255 0 0 Scenario.heap) as [G h'].
    exists G, h'. split; [reflexivity|].
    rewrite Hdata. vm_compute. reflexivity.
Qed.

(** ** The quantization grid (C7) *)

(** Every value of the forward lambda is one of the grid. *)
Lemma forward_kernel_on_grid scale inv zp qmin qmax x :
  qmin <= qmax ->
  exists q, qmin <= q <= qmax /\
    same_value (forward_kernel scale inv zp qmin qmax x)
      (dequantize scale zp (float_of_int64 q)).
Proof.
  intros Hq. rewrite Rounding.forward_kernel_eq.
  destruct (Rounding.clamp_on_grid
              (fadd (fmul x inv) (float_of_int64 zp)) qmin qmax Hq)
    as (q & Hr & Hs).
  exists q. split; [assumption|].
  now apply Rounding.dequantize_same_value.
Qed.

(** C7: with valid parameters and outside the warm-up window, the tensor
    that the forward operator returns has one element for each element of
    the input, and the element at the position of every input element [x]
    has the value [(q - zero_point) * scale] for an integer [q] with
    [quant_min <= q <= quant_max]; it holds no other element. *)
Theorem forward_on_grid uninit (self : Tensor) scale zp qmin qmax delay iter
    (h : Heap) :
  supported self -> wf h self ->
  validate qmin qmax zp delay iter = None ->
  delay = 0 \/ delay < iter ->
  exists Y h',
    fake_quantize_per_tensor_affine_cuda uninit self scale zp qmin qmax delay
      iter h = Ok (Y, h') /\
    length (data h' Y) = length (data h self) /\
    (forall (i : nat) x,
       data h self !! i = Some x ->
       exists y q,
         data h' Y !! i = Some y /\ qmin <= q <= qmax /\
         same_value y (dequantize scale zp (float_of_int64 q))) /\
    (forall (i : nat) y,
       data h' Y !! i = Some y ->
       exists x q,
         data h self !! i = Some x /\ qmin <= q <= qmax /\
         same_value y (dequantize scale zp (float_of_int64 q))).
Proof.
  intros Hs Hwf Hv Hw.
  pose proof (proj1 (validate_None _ _ _ _ _) Hv) as (Hq & _ & Hd & _).
  assert (warm_up delay iter = false) as Hw'
    by (apply warm_up_false; assumption).
  rewrite forward_returns by assumption.
  eexists _, _. split; [reflexivity|].
  rewrite forward_heap_data, Hw' by assumption.
  split; [apply length_fmap|]. split.
  - intros i x Hx.
    destruct (forward_kernel_on_grid scale (inv_scale_of scale) zp qmin qmax
                x Hq) as (q & Hr & Hsame).
    eexists _, q. split; [|split; [exact Hr | exact Hsame]].
    rewrite list_lookup_fmap, Hx. reflexivity.
  - intros i y Hy. rewrite list_lookup_fmap in Hy.
    apply fmap_Some in Hy as (x & Hx & ->).
    destruct (forward_kernel_on_grid scale (inv_scale_of scale) zp qmin qmax
                x Hq) as (q & Hr & Hsame).
    exists x, q. auto.
Qed.

Lemma forward_on_grid_witness :
  exists Y h',
    fake_quantize_per_tensor_affine_cuda Scenario.garbage Scenario.X
      Scenario.scale 10 0 255 0 0 Scenario.heap = Ok (Y, h') /\
    length (data h' Y) = length (data Scenario.heap Scenario.X) /\
    (forall (i : nat) x,
       data Scenario.heap Scenario.X !! i = Some x ->
       exists y q,
         data h' Y !! i = Some y /\ 0 <= q <= 255 /\
         same_value y (dequantize Scenario.scale 10 (float_of_int64 q))) /\
    (forall (i : nat) y,
       data h' Y !! i = Some y ->
       exists x q,
         data Scenario.heap Scenario.X !! i = Some x /\ 0 <= q <= 255 /\
         same_value y (dequantize Scenario.scale 10 (float_of_int64 q))).
Proof.
  apply (forward_on_grid Scenario.garbage Scenario.X Scenario.scale
           10 0 255 0 0 Scenario.heap scenario_X_supported scenario_X_wf);
    [reflexivity | left; reflexivity].
Defined.

(** ** Two runs of the forward operator (C6) *)

Lemma same_valueb_true x y : same_valueb x y = true -> same_value x y.
Proof.
  destruct x as [s|s| |s m e], y as [s'|s'| |s' m' e']; simpl;
    try discriminate; intros H.
  - now right.
  - apply Bool.eqb_prop in H. subst. now left.
  - now left.
  - apply andb_true_iff in H as [H He]. apply andb_true_iff in H as [Hs Hm].
    apply Bool.eqb_prop in Hs. apply Pos.eqb_eq in Hm. apply Z.eqb_eq in He.
    subst. now left.
Qed.


(** The output of the forward operator is a well-formed, supported tensor. *)
Lemma forward_heap_wf uninit self scale zp qmin qmax delay iter (h : Heap) :
  wf h self ->
  wf (forward_heap uninit self scale zp qmin qmax delay iter h)
     (like (fresh (dom h)) self).
Proof.
  intros Hwf.
  pose proof (forward_heap_data uninit self scale zp qmin qmax delay iter h Hwf)
    as Hdata.
  pose proof (wf_length h self Hwf) as Hlen.
  unfold data in Hdata. unfold wf.
  destruct (forward_heap uninit self scale zp qmin qmax delay iter h
              !! storage (like (fresh (dom h)) self)) as [d|] eqn:E.
  - exists d. split; [reflexivity|]. simpl in Hdata. subst d.
    change (numel (like (fresh (dom h)) self)) with (numel self).
    fold (data h self).
    destruct (warm_up delay iter); rewrite ?length_fmap, Hlen;
      unfold numel; lia.
  - exfalso. unfold forward_heap in E.
    destruct (warm_up delay iter); simpl in E;
      rewrite lookup_insert_eq in E; discriminate.
Qed.



(** ** The backward transform, element by element (C2) *)

(** The gradient that the backward operator returns on conformant
    tensors, outside the warm-up window. *)
Lemma backward_quantized uninit dY X scale zp qmin qmax delay iter (h : Heap) :
  supported X -> wf h X -> wf h dY -> numel X = numel dY ->
  validate qmin qmax zp delay iter = None ->
  delay = 0 \/ delay < iter ->
  exists G h',
    fake_quantize_per_tensor_affine_backward_cuda uninit dY X scale zp qmin
      qmax delay iter h = Ok (G, h') /\
    data h' G =
      zip_with fmul (spec_mask scale zp qmin qmax <$> data h X) (data h dY).
Proof.
  intros Hs HX HdY Hn Hv Hw.
  pose proof (proj1 (validate_None _ _ _ _ _) Hv) as (Hq & Hzp & Hd & Hi).
  assert (warm_up delay iter = false) as Hw'
    by (apply warm_up_false; assumption).
  destruct (Z.leb_spec (numel X) 0) as [Hle|Hgt].
  - assert (numel X = 0) as H0 by (unfold numel in *; lia).
    rewrite backward_run by assumption.
    assert (validate_quant qmin qmax zp delay = None) as ->
      by (apply validate_quant_None; auto).
    rewrite H0. simpl.
    exists X, h. split; [reflexivity|].
    pose proof (wf_length h X HX) as LX. rewrite H0 in LX.
    apply nil_length_inv in LX. now rewrite LX.
  - rewrite backward_returns by assumption.
    pose proof (backward_heap_data uninit dY X scale zp qmin qmax delay iter h
                  HX HdY Hn) as Hdata.
    destruct (backward_heap uninit dY X scale zp qmin qmax delay iter h)
      as [G h'].
    exists G, h'. split; [reflexivity|].
    rewrite Hdata, Hw'.
    rewrite (list_fmap_ext _ (spec_mask scale zp qmin qmax) (data h X)
               (fun _ x _ => backward_kernel_spec scale zp qmin qmax x)).
    reflexivity.
Qed.

(** C2, as stated, fails where the gradient is infinite: at the saturated
    element 200.0 the mask is 0 and the gradient written is
    [0 * inf = NaN], not zero. *)
Lemma mask_counterexample :
  exists G h',
    fake_quantize_per_tensor_affine_backward_cuda Scenario.garbage Overflow.dY
      Overflow.X Scenario.scale 10 0 255 0 0 Overflow.heap = Ok (G, h') /\
    in_range Scenario.scale 10 0 255 Scenario.x_200 = false /\
    data h' G = [S754_nan] /\
    ~ (forall (i : nat) y x,
         data h' G !! i = Some y -> data Overflow.heap Overflow.X !! i = Some x ->
         (is_zero y = true <-> in_range Scenario.scale 10 0 255 x = false)).
Proof.
  destruct (backward_quantized Scenario.garbage Overflow.dY Overflow.X
              Scenario.scale 10 0 255 0 0 Overflow.heap
              overflow_X_supported overflow_X_wf overflow_dY_wf)
    as (G & h' & Hrun & Hdata); [reflexivity | reflexivity | now left |].
  exists G, h'. split; [assumption|].
  assert (data h' G = [S754_nan]) as E
    by (rewrite Hdata; vm_compute; reflexivity).
  split; [vm_compute; reflexivity|]. split; [assumption|].
  intros Hall.
  specialize (Hall 0%nat S754_nan Scenario.x_200).
  rewrite E in Hall.
  destruct (Hall eq_refl eq_refl) as [_ Hz].
  discriminate Hz. vm_compute. reflexivity.
Qed.

(** C2 (amended): with valid parameters and conformant tensors, outside
    the warm-up window, the backward operator returns a tensor whose
    element at each position is [m * gradOutput[i]], where [m] is 1.0 if
    [quant_min <= round(input[i] * (1/scale) + zero_point) <= quant_max]
    (the bounds converted to [float]) and 0.0 otherwise; where
    [gradOutput[i]] is finite, and nonzero if the rounded value is in
    range, that element is zero iff the rounded value is out of range. *)
Theorem backward_elementwise uninit (dY X : Tensor) scale zp qmin qmax delay
    iter (h : Heap) :
  supported X -> wf h X -> wf h dY -> numel X = numel dY ->
  validate qmin qmax zp delay iter = None ->
  delay = 0 \/ delay < iter ->
  exists G h',
    fake_quantize_per_tensor_affine_backward_cuda uninit dY X scale zp qmin
      qmax delay iter h = Ok (G, h') /\
    length (data h' G) = length (data h X) /\
    forall (i : nat) x g,
      data h X !! i = Some x -> data h dY !! i = Some g ->
      let m := if in_range scale zp qmin qmax x then one else zero in
      data h' G !! i = Some (fmul m g) /\
      (fvalid g = true -> is_finite g = true ->
       (in_range scale zp qmin qmax x = true -> is_zero g = false) ->
       (is_zero (fmul m g) = true <-> in_range scale zp qmin qmax x = false)).
Proof.
  intros Hs HX HdY Hn Hv Hw.
  destruct (backward_quantized uninit dY X scale zp qmin qmax delay iter h
              Hs HX HdY Hn Hv Hw) as (G & h' & Hrun & Hdata).
  exists G, h'. split; [assumption|].
  rewrite Hdata. split.
  - rewrite length_zip_with, length_fmap.
    rewrite (wf_length h X HX), (wf_length h dY HdY), Hn. lia.
  - intros i x g Hx Hg m. split.
    + apply lookup_zip_with_Some. exists (spec_mask scale zp qmin qmax x), g.
      split; [reflexivity|]. split; [|assumption].
      rewrite list_lookup_fmap, Hx. reflexivity.
    + intros Hval Hfin Hnz. subst m.
      destruct (in_range scale zp qmin qmax x) eqn:Hin.
      * rewrite Rounding.fmul_one_valid by assumption.
        rewrite (Hnz eq_refl). split; discriminate.
      * destruct g as [s|s| |s mg eg]; try discriminate Hfin;
          split; reflexivity.
Qed.

Lemma backward_elementwise_witness :
  exists G h',
    fake_quantize_per_tensor_affine_backward_cuda Scenario.garbage Scenario.dY
      Scenario.X Scenario.scale 10 0 255 0 0 Scenario.heap = Ok (G, h') /\
    length (data h' G) = length (data Scenario.heap Scenario.X) /\
    forall (i : nat) x g,
      data Scenario.heap Scenario.X !! i = Some x ->
      data Scenario.heap Scenario.dY !! i = Some g ->
      let m := if in_range Scenario.scale 10 0 255 x then one else zero in
      data h' G !! i = Some (fmul m g) /\
      (fvalid g = true -> is_finite g = true ->
       (in_range Scenario.scale 10 0 255 x = true -> is_zero g = false) ->
       (is_zero (fmul m g) = true <->
        in_range Scenario.scale 10 0 255 x = false)).
Proof.
  apply (backward_elementwise Scenario.garbage Scenario.dY Scenario.X
           Scenario.scale 10 0 255 0 0 Scenario.heap
           scenario_X_supported scenario_X_wf scenario_dY_wf);
    [reflexivity | reflexivity | left; reflexivity].
Defined.

(** ** Further facts about comparison and clamping *)

Lemma compare_Eq_same_value x y : SFcompare x y = Some Eq -> same_value x y.
Proof.
  destruct x as [sx|sx| |sx mx ex], y as [sy|sy| |sy my ey]; simpl;
    try discriminate; intros H;
    try (now right);
    try (destruct sx; discriminate H);
    try (destruct sy; discriminate H).
  - destruct sx, sy; (discriminate H || now left).
  - destruct sx, sy; try discriminate H; injection H as H;
      destruct (Z.compare_spec ex ey) as [E|_|_]; try discriminate H; subst;
      left; f_equal.
    + apply Pos.compare_eq. change (Pos.compare_cont Eq mx my) with (mx ?= my)%positive in H.
      destruct (mx ?= my)%positive; (discriminate || reflexivity).
    + now apply Pos.compare_eq.
Qed.

Lemma fle_okey x y :
  normal24 x -> normal24 y -> (fle x y = true <-> okey x <= okey y).
Proof.
  intros Hx Hy. unfold fle, SFleb. rewrite Rounding.compare_okey by assumption.
  destruct (Z.compare_spec (okey x) (okey y)); split; intros;
    (reflexivity || discriminate || lia).
Qed.

Lemma flt_fle x y : flt x y = true -> fle x y = true.
Proof.
  unfold flt, fle, SFltb, SFleb.
  destruct (SFcompare x y) as [[| |]|]; (discriminate || reflexivity).
Qed.

Lemma fle_not_nan x y :
  fle x y = true -> is_nan x = false /\ is_nan y = false.
Proof.
  unfold fle, SFleb. destruct x, y; simpl; (discriminate || auto).
Qed.

(** [x <= y] without [x < y] leaves [x == y]. *)
Lemma fle_not_flt x y :
  fle x y = true -> flt x y = false -> same_value x y.
Proof.
  unfold flt, fle, SFltb, SFleb. intros Hle Hlt.
  apply compare_Eq_same_value.
  destruct (SFcompare x y) as [[| |]|]; (discriminate || reflexivity).
Qed.

Lemma roundf_normal v : is_nan (roundf v) = false -> normal24 (roundf v).
Proof.
  intros Hn. destruct (Rounding.roundf_cases v) as [E|[[s E]|[n Hs]]].
  - rewrite E in Hn. discriminate.
  - rewrite E. exact I.
  - eapply Rounding.same_value_normal24; [exact Hs|].
    apply Rounding.float_of_int64_key.
Qed.

(** A value between the bounds is left alone by the clamp. *)
Lemma clamp_in_range r lo hi :
  fle lo r = true -> fle r hi = true -> same_value (clamp r lo hi) r.
Proof.
  intros Hlo Hhi.
  destruct (fle_not_nan _ _ Hlo) as [Nlo Nr].
  destruct (fle_not_nan _ _ Hhi) as [_ Nhi].
  assert (same_value (fmaxf lo r) r) as Ht.
  { unfold fmaxf. rewrite Nr, Nlo.
    destruct (flt lo r) eqn:E.
    - destruct lo, r; try apply Rounding.same_value_refl;
        apply Rounding.same_value_zero.
    - pose proof (fle_not_flt lo r Hlo E) as Hs.
      destruct lo, r; try exact Hs; apply Rounding.same_value_zero. }
  unfold clamp.
  eapply Rounding.same_value_trans;
    [apply Rounding.fminf_same_value, Ht|].
  unfold fminf. rewrite Nr, Nhi.
  destruct (flt r hi) eqn:E.
  - destruct hi, r; try apply Rounding.same_value_refl;
      apply Rounding.same_value_zero.
  - pose proof (Rounding.same_value_sym _ _ (fle_not_flt r hi Hhi E)) as Hs.
    destruct hi, r; try exact Hs; apply Rounding.same_value_zero.
Qed.

(** A value that is not between the bounds is clamped to one of them. *)
Lemma clamp_out_of_range r lo hi :
  is_nan lo = false -> is_nan hi = false ->
  fle lo r && fle r hi = false ->
  same_value (clamp r lo hi) lo \/ same_value (clamp r lo hi) hi.
Proof.
  intros Nlo Nhi Hout. unfold clamp.
  destruct (Rounding.fminf_cases hi (fmaxf lo r) Nhi)
    as [E|[[Zh Zc]|(E & Lt1 & _)]].
  - right. rewrite E. apply Rounding.same_value_refl.
  - right. now apply Rounding.zero_same_value.
  - rewrite E in *.
    destruct (Rounding.fmaxf_cases lo r Nlo) as [E'|[[Zl Zc]|(E' & Lt2 & _)]].
    + left. rewrite E'. apply Rounding.same_value_refl.
    + left. now apply Rounding.zero_same_value.
    + rewrite E' in *.
      rewrite (flt_fle _ _ Lt1), (flt_fle _ _ Lt2) in Hout. discriminate.
Qed.

(** The smaller of two ordered bounds. *)
Lemma fminf_ordered a b :
  normal24 a -> normal24 b -> okey a <= okey b -> same_value (fminf b a) a.
Proof.
  intros Na Nb Hk. unfold fminf.
  rewrite (Rounding.normal24_not_nan a Na), (Rounding.normal24_not_nan b Nb).
  destruct (flt a b) eqn:E.
  - destruct b, a; try apply Rounding.same_value_refl;
      apply Rounding.same_value_zero.
  - assert (fle a b = true) as Hle by (apply fle_okey; assumption).
    pose proof (Rounding.same_value_sym _ _ (fle_not_flt a b Hle E)) as Hs.
    destruct b, a; try exact Hs; apply Rounding.same_value_zero.
Qed.

Lemma int64_digits p : Zpos p <= 2 ^ 63 -> digits p <= 64.
Proof.
  intros Hp. pose proof (Rounding.digits_bounds p) as [Hlo _].
  destruct (Z.le_gt_cases (digits p) 64) as [|Hgt]; [assumption|].
  assert (2 ^ 64 <= 2 ^ (digits p - 1)) by (apply Z.pow_le_mono_r; lia).
  lia.
Qed.

(** An [int64_t] converts to a finite [float]. *)
Lemma float_of_int64_finite z : int64 z -> is_finite (float_of_int64 z) = true.
Proof.
  unfold int64. intros Hz. rewrite Rounding.float_of_int64_eq.
  assert (forall s p, Zpos p <= 2 ^ 63 -> is_finite (round24 s p) = true) as H.
  { intros s p Hp. pose proof (int64_digits p Hp) as Hd.
    pose proof (Rounding.digits_pos p).
    unfold round24. cbv zeta.
    destruct (digits p <=? 24); [reflexivity|].
    unfold fin_or_inf.
    destruct (_ =? _).
    - destruct (Z.leb_spec (digits p - 24 + 1) 104); [reflexivity | lia].
    - destruct (Z.leb_spec (digits p - 24) 104); [reflexivity | lia]. }
  destruct z as [|p|p]; [reflexivity | apply H; lia | apply H; lia].
Qed.

(** A non-negative integer below [2^24] is converted exactly, and
    [roundf] leaves the result alone. *)
Lemma roundf_small_int z :
  0 <= z < 2 ^ 24 -> roundf (float_of_int64 z) = float_of_int64 z.
Proof.
  intros Hz. destruct z as [|p|p]; [reflexivity | | lia].
  rewrite Rounding.float_of_int64_eq.
  assert (digits p <= 24) as Hd.
  { pose proof (Rounding.digits_bounds p) as [Hlo _].
    destruct (Z.le_gt_cases (digits p) 24) as [|Hgt]; [assumption|].
    assert (2 ^ 24 <= 2 ^ (digits p - 1)) by (apply Z.pow_le_mono_r; lia).
    lia. }
  pose proof (Rounding.digits_pos p) as Hd1.
  pose proof (Rounding.scaled_bounds p Hd) as Hb.
  unfold round24. cbv zeta.
  destruct (Z.leb_spec (digits p) 24) as [_|]; [|lia].
  set (k := 24 - digits p) in *.
  assert (0 < 2 ^ k) as Hpow by (apply Z.pow_pos_nonneg; lia).
  unfold roundf, cond_Zopp.
  assert (round_half_away (Z.to_pos (Zpos p * 2 ^ k)) (digits p - 24) = Zpos p)
    as ->.
  { unfold round_half_away. rewrite Z2Pos.id by lia.
    destruct (Z.leb_spec 0 (digits p - 24)) as [Hge|Hlt].
    - assert (k = 0) as -> by lia.
      replace (digits p - 24) with 0 by lia. simpl. lia.
    - replace (- (digits p - 24)) with k by lia.
      assert (2 ^ k = 2 * 2 ^ (k - 1)) as Ek
        by (rewrite <- Z.pow_succ_r by lia; f_equal; lia).
      assert (0 < 2 ^ (k - 1)) by (apply Z.pow_pos_nonneg; lia).
      symmetry. apply Z.div_unique with (2 ^ (k - 1)); lia. }
  unfold binary_normalize, fprec, femax.
  rewrite Rounding.binary_round_round24. unfold round24. cbv zeta.
  destruct (Z.leb_spec (digits p) 24) as [_|]; [reflexivity | lia].
Qed.

(** ** Further properties of the device lambdas *)

Lemma quantized_eq inv zp x :
  quantized inv zp x = roundf (fadd (fmul x inv) (float_of_int64 zp)).
Proof. unfold quantized. reflexivity. Qed.

Lemma forward_kernel_quantized scale inv zp qmin qmax x :
  forward_kernel scale inv zp qmin qmax x =
  dequantize scale zp
    (clamp (quantized inv zp x) (float_of_int64 qmin) (float_of_int64 qmax)).
Proof. rewrite Rounding.forward_kernel_eq, quantized_eq. reflexivity. Qed.

Lemma backward_kernel_quantized inv zp qmin qmax x :
  backward_kernel inv zp qmin qmax x =
  float_of_bool
    (fle (float_of_int64 qmin) (quantized inv zp x)
     && fle (quantized inv zp x) (float_of_int64 qmax)).
Proof. unfold backward_kernel, fge, fle. reflexivity. Qed.

(** X4: the mask of the backward lambda is 1 exactly where the clamp of the
    forward lambda leaves the rounded value alone; where the mask is 0 the
    forward lambda returns the value of [quant_min] or of [quant_max]. *)
Theorem mask_matches_clamp scale zp qmin qmax x :
  let inv := inv_scale_of scale in
  let y := forward_kernel scale inv zp qmin qmax x in
  let m := backward_kernel inv zp qmin qmax x in
  (m = one \/ m = zero) /\
  (m = one -> same_value y (dequantize scale zp (quantized inv zp x))) /\
  (m = zero ->
     same_value y (dequantize scale zp (float_of_int64 qmin)) \/
     same_value y (dequantize scale zp (float_of_int64 qmax))).
Proof.
  intros inv y m. subst y m.
  rewrite forward_kernel_quantized, backward_kernel_quantized.
  set (r := quantized inv zp x).
  destruct (fle (float_of_int64 qmin) r && fle r (float_of_int64 qmax)) eqn:E;
    unfold float_of_bool.
  - split; [now left|]. split; [|discriminate].
    intros _. apply andb_true_iff in E as [E1 E2].
    apply Rounding.dequantize_same_value. now apply clamp_in_range.
  - split; [now right|]. split; [discriminate|].
    intros _.
    destruct (clamp_out_of_range r (float_of_int64 qmin) (float_of_int64 qmax))
      as [H|H];
      [apply Rounding.normal24_not_nan, Rounding.float_of_int64_key
      |apply Rounding.normal24_not_nan, Rounding.float_of_int64_key
      |exact E | left | right];
      now apply Rounding.dequantize_same_value.
Qed.

(** X5: the bounds of the range are inclusive for the mask: where the rounded
    value is [quant_min] or [quant_max] the mask is 1. *)
Theorem mask_bounds_inclusive inv zp qmin qmax x :
  qmin <= qmax ->
  same_value (quantized inv zp x) (float_of_int64 qmin) \/
  same_value (quantized inv zp x) (float_of_int64 qmax) ->
  backward_kernel inv zp qmin qmax x = one.
Proof.
  intros Hq Hr. rewrite backward_kernel_quantized.
  destruct (Rounding.float_of_int64_key qmin) as [KA NA].
  destruct (Rounding.float_of_int64_key qmax) as [KB NB].
  pose proof (Rounding.zkey_mono qmin qmax Hq) as Hk.
  set (r := quantized inv zp x) in *.
  assert (normal24 r /\ (okey r = zkey qmin \/ okey r = zkey qmax))
    as [Nr Kr].
  { destruct Hr as [H|H]; (split;
      [eapply Rounding.same_value_normal24; eauto
      |rewrite (Rounding.same_value_okey _ _ H); auto]). }
  assert (fle (float_of_int64 qmin) r = true) as ->
    by (apply fle_okey; [assumption | assumption | lia]).
  assert (fle r (float_of_int64 qmax) = true) as ->
    by (apply fle_okey; [assumption | assumption | lia]).
  reflexivity.
Qed.

Lemma mask_bounds_inclusive_witness :
  backward_kernel (inv_scale_of Scenario.scale) 10 0 255
    Scenario.y_122_5 = one.
Proof.
  apply (mask_bounds_inclusive (inv_scale_of Scenario.scale) 10 0 255
           Scenario.y_122_5);
    [lia | right; left; vm_compute; reflexivity].
Defined.

(** X6: a NaN element is not propagated: the forward lambda maps it to the
    value of [quant_min], and the backward lambda gives it the mask 0. *)
Theorem nan_input scale inv zp qmin qmax :
  qmin <= qmax ->
  same_value (forward_kernel scale inv zp qmin qmax S754_nan)
    (dequantize scale zp (float_of_int64 qmin)) /\
  backward_kernel inv zp qmin qmax S754_nan = zero.
Proof.
  intros Hq. rewrite forward_kernel_quantized, backward_kernel_quantized.
  assert (quantized inv zp S754_nan = S754_nan) as -> by reflexivity.
  destruct (Rounding.float_of_int64_key qmin) as [KA NA].
  destruct (Rounding.float_of_int64_key qmax) as [KB NB].
  split.
  - apply Rounding.dequantize_same_value. unfold clamp.
    assert (fmaxf (float_of_int64 qmin) S754_nan = float_of_int64 qmin) as ->
      by reflexivity.
    apply fminf_ordered; [assumption | assumption |].
    rewrite KA, KB. now apply Rounding.zkey_mono.
  - assert (fle (float_of_int64 qmin) S754_nan = false) as ->.
    { unfold fle, SFleb. destruct (float_of_int64 qmin); reflexivity. }
    reflexivity.
Qed.

Lemma nan_input_witness :
  same_value
    (forward_kernel Scenario.scale (inv_scale_of Scenario.scale) 10 0 255
       S754_nan)
    (dequantize Scenario.scale 10 (float_of_int64 0)) /\
  backward_kernel (inv_scale_of Scenario.scale) 10 0 255 S754_nan = zero.
Proof.
  apply (nan_input Scenario.scale (inv_scale_of Scenario.scale) 10 0 255).
  lia.
Defined.

(** X7: infinite elements saturate when [1/scale] is a positive finite
    [float]: the forward lambda maps [+inf] to the value of [quant_max]
    and [-inf] to the value of [quant_min], and the mask is 0 at both. *)
Theorem infinite_input scale zp qmin qmax m e :
  int64 qmin -> int64 qmax -> int64 zp -> qmin <= qmax ->
  inv_scale_of scale = S754_finite false m e ->
  let inv := inv_scale_of scale in
  forward_kernel scale inv zp qmin qmax (S754_infinity false)
    = dequantize scale zp (float_of_int64 qmax) /\
  same_value (forward_kernel scale inv zp qmin qmax (S754_infinity true))
    (dequantize scale zp (float_of_int64 qmin)) /\
  backward_kernel inv zp qmin qmax (S754_infinity false) = zero /\
  backward_kernel inv zp qmin qmax (S754_infinity true) = zero.
Proof.
  intros Imin Imax Izp Hq Einv inv. subst inv. rewrite Einv.
  rewrite !forward_kernel_quantized, !backward_kernel_quantized.
  pose proof (float_of_int64_finite qmin Imin) as Fmin.
  pose proof (float_of_int64_finite qmax Imax) as Fmax.
  pose proof (float_of_int64_finite zp Izp) as Fzp.
  destruct (Rounding.float_of_int64_key qmin) as [KA NA].
  destruct (Rounding.float_of_int64_key qmax) as [KB NB].
  assert (forall s, quantized (S754_finite false m e) zp (S754_infinity s)
                    = S754_infinity s) as Hr.
  { intros s. rewrite quantized_eq.
    destruct (float_of_int64 zp); try discriminate Fzp; destruct s; reflexivity. }
  rewrite !Hr.
  assert (clamp (S754_infinity false) (float_of_int64 qmin)
            (float_of_int64 qmax) = float_of_int64 qmax) as Ehi.
  { unfold clamp.
    destruct (float_of_int64 qmin) as [s1|s1| |s1 m1 e1];
      try discriminate Fmin;
      destruct (float_of_int64 qmax) as [s2|s2| |s2 m2 e2];
      try discriminate Fmax; reflexivity. }
  assert (fmaxf (float_of_int64 qmin) (S754_infinity true)
          = float_of_int64 qmin) as Elo.
  { destruct (float_of_int64 qmin) as [s1|s1| |s1 m1 e1];
      try discriminate Fmin; reflexivity. }
  split; [now rewrite Ehi|]. split; [|split].
  - apply Rounding.dequantize_same_value. unfold clamp. rewrite Elo.
    apply fminf_ordered; [assumption | assumption |].
    rewrite KA, KB. now apply Rounding.zkey_mono.
  - assert (fle (S754_infinity false) (float_of_int64 qmax) = false) as ->.
    { destruct (float_of_int64 qmax) as [s2|s2| |s2 m2 e2];
        try discriminate Fmax; reflexivity. }
    now rewrite andb_false_r.
  - assert (fle (float_of_int64 qmin) (S754_infinity true) = false) as ->.
    { destruct (float_of_int64 qmin) as [s1|s1| |s1 m1 e1];
        try discriminate Fmin; reflexivity. }
    reflexivity.
Qed.

Lemma infinite_input_witness :
  forward_kernel Scenario.scale (inv_scale_of Scenario.scale) 10 0 255
    (S754_infinity false)
  = dequantize Scenario.scale 10 (float_of_int64 255) /\
  same_value
    (forward_kernel Scenario.scale (inv_scale_of Scenario.scale) 10 0 255
       (S754_infinity true))
    (dequantize Scenario.scale 10 (float_of_int64 0)) /\
  backward_kernel (inv_scale_of Scenario.scale) 10 0 255 (S754_infinity false)
  = zero /\
  backward_kernel (inv_scale_of Scenario.scale) 10 0 255 (S754_infinity true)
  = zero.
Proof.
  apply (infinite_input Scenario.scale 10 0 255 8388608 (-22));
    [unfold int64; lia | unfold int64; lia | unfold int64; lia | lia
    | vm_compute; reflexivity].
Defined.

Lemma mask_matches_clamp_witness :
  backward_kernel (inv_scale_of Scenario.scale) 10 0 255 Scenario.x_3_3 = one /\
  same_value
    (forward_kernel Scenario.scale (inv_scale_of Scenario.scale) 10 0 255
       Scenario.x_3_3)
    (dequantize Scenario.scale 10
       (quantized (inv_scale_of Scenario.scale) 10 Scenario.x_3_3)).
Proof.
  assert (backward_kernel (inv_scale_of Scenario.scale) 10 0 255
            Scenario.x_3_3 = one) as E by (vm_compute; reflexivity).
  split; [exact E|].
  exact (proj1 (proj2 (mask_matches_clamp Scenario.scale 10 0 255
                         Scenario.x_3_3)) E).
Defined.

Lemma same_value_is_zero x y :
  same_value x y -> is_zero y = true -> is_zero x = true.
Proof. intros [->|[Hx _]] Hy; assumption. Qed.

Lemma fsub_self x : is_finite x = true -> is_zero (fsub x x) = true.
Proof.
  destruct x as [s|s| |s m e]; try discriminate; intros _.
  - destruct s; reflexivity.
  - unfold fsub, SFsub. rewrite Z.sub_diag. reflexivity.
Qed.

(** X8: the real value 0 is represented exactly when [zero_point] lies in the
    quantization range and below [2^24], and [scale] and [1/scale] are
    finite: the forward lambda maps a zero to a zero, and the mask there
    is 1. *)
Theorem zero_preserved scale zp qmin qmax s :
  qmin <= zp <= qmax -> 0 <= zp < 2 ^ 24 ->
  is_finite scale = true -> is_finite (inv_scale_of scale) = true ->
  let inv := inv_scale_of scale in
  is_zero (forward_kernel scale inv zp qmin qmax (S754_zero s)) = true /\
  backward_kernel inv zp qmin qmax (S754_zero s) = one.
Proof.
  intros Hq Hzp Fs Finv inv. subst inv.
  set (inv := inv_scale_of scale) in *.
  destruct (Rounding.float_of_int64_key qmin) as [KA NA].
  destruct (Rounding.float_of_int64_key qmax) as [KB NB].
  destruct (Rounding.float_of_int64_key zp) as [KZ NZ].
  assert (is_finite (float_of_int64 zp) = true) as Fzp
    by (apply float_of_int64_finite; unfold int64; lia).
  assert (same_value (quantized inv zp (S754_zero s)) (float_of_int64 zp))
    as Hr.
  { rewrite quantized_eq. rewrite <- (roundf_small_int zp Hzp) at 2.
    apply Rounding.roundf_same_value.
    destruct inv as [si|si| |si mi ei]; try discriminate Finv;
      destruct (float_of_int64 zp) as [sz|sz| |sz mz ez];
      try discriminate Fzp; destruct s, si, sz; simpl;
      try apply Rounding.same_value_zero; apply Rounding.same_value_refl. }
  set (r := quantized inv zp (S754_zero s)) in *.
  assert (normal24 r) as Nr by (eapply Rounding.same_value_normal24; eauto).
  assert (okey r = zkey zp) as Kr
    by (rewrite (Rounding.same_value_okey _ _ Hr); exact KZ).
  assert (fle (float_of_int64 qmin) r = true) as Hlo.
  { apply fle_okey; [assumption | assumption |].
    rewrite KA, Kr. apply Rounding.zkey_mono. lia. }
  assert (fle r (float_of_int64 qmax) = true) as Hhi.
  { apply fle_okey; [assumption | assumption |].
    rewrite KB, Kr. apply Rounding.zkey_mono. lia. }
  split.
  - rewrite forward_kernel_quantized. fold r.
    apply (same_value_is_zero _ (dequantize scale zp (float_of_int64 zp))).
    + apply Rounding.dequantize_same_value.
      eapply Rounding.same_value_trans; [now apply clamp_in_range | exact Hr].
    + unfold dequantize.
      pose proof (fsub_self (float_of_int64 zp) Fzp) as Hz.
      destruct (fsub (float_of_int64 zp) (float_of_int64 zp));
        try discriminate Hz.
      destruct scale; try discriminate Fs; reflexivity.
  - rewrite backward_kernel_quantized. fold r. rewrite Hlo, Hhi. reflexivity.
Qed.

Lemma zero_preserved_witness :
  is_zero
    (forward_kernel Scenario.scale (inv_scale_of Scenario.scale) 10 0 255
       (S754_zero true)) = true /\
  backward_kernel (inv_scale_of Scenario.scale) 10 0 255 (S754_zero true) = one.
Proof.
  apply (zero_preserved Scenario.scale 10 0 255 true);
    [lia | lia | reflexivity | vm_compute; reflexivity].
Defined.

(** ** Further properties of the operators *)

Lemma forward_unsupported uninit self scale zp qmin qmax delay iter (h : Heap) :
  ~ supported self ->
  fake_quantize_per_tensor_affine_cuda uninit self scale zp qmin qmax delay
    iter h =
  Throw (if is_cuda self then UnsupportedDtype else UnsupportedDevice).
Proof.
  unfold supported, fake_quantize_per_tensor_affine_cuda.
  unfold TORCH_CHECK, throw_if, bind, throw, ret.
  intros Hn. destruct (is_cuda self); simpl; [|reflexivity].
  destruct (bool_decide_reflect (scalar_type self = Float)); simpl;
    [tauto | reflexivity].
Qed.

Lemma backward_unsupported uninit dY X scale zp qmin qmax delay iter (h : Heap) :
  ~ supported X ->
  fake_quantize_per_tensor_affine_backward_cuda uninit dY X scale zp qmin qmax
    delay iter h =
  Throw (if is_cuda X then UnsupportedDtype else UnsupportedDevice).
Proof.
  unfold supported, fake_quantize_per_tensor_affine_backward_cuda.
  unfold TORCH_CHECK, throw_if, bind, throw, ret.
  intros Hn. destruct (is_cuda X); simpl; [|reflexivity].
  destruct (bool_decide_reflect (scalar_type X = Float)); simpl;
    [tauto | reflexivity].
Qed.

Lemma supported_dec t : supported t \/ ~ supported t.
Proof.
  unfold supported. destruct (is_cuda t);
    destruct (decide (scalar_type t = Float)); intuition congruence.
Qed.

Lemma validate_error qmin qmax zp delay iter e :
  validate qmin qmax zp delay iter = Some e -> validator_error e.
Proof.
  unfold validate, validator_error.
  repeat match goal with |- context [if ?b then _ else _] => destruct b end;
    intros H; inversion H; auto.
Qed.

Lemma validate_quant_error qmin qmax zp delay e :
  validate_quant qmin qmax zp delay = Some e -> validator_error e.
Proof.
  unfold validate_quant, validator_error.
  repeat match goal with |- context [if ?b then _ else _] => destruct b end;
    intros H; inversion H; auto.
Qed.

(** X1: the device and the dtype of the tensor are checked before everything
    else: either operator reports UnsupportedDevice iff its input is not on
    the device, and UnsupportedDtype iff it is there with another dtype
    than [Float], whatever the other arguments are. *)
Theorem unsupported_first uninit (self dY X : Tensor) scale zp qmin qmax delay
    iter (h : Heap) :
  let f := fake_quantize_per_tensor_affine_cuda uninit self scale zp qmin
             qmax delay iter h in
  let b := fake_quantize_per_tensor_affine_backward_cuda uninit dY X scale zp
             qmin qmax delay iter h in
  (f = Throw UnsupportedDevice <-> is_cuda self = false) /\
  (f = Throw UnsupportedDtype <->
     is_cuda self = true /\ scalar_type self <> Float) /\
  (b = Throw UnsupportedDevice <-> is_cuda X = false) /\
  (b = Throw UnsupportedDtype <-> is_cuda X = true /\ scalar_type X <> Float).
Proof.
  intros f b. subst f b.
  assert (forall e, validator_error e ->
            e <> UnsupportedDevice /\ e <> UnsupportedDtype) as Hve
    by (intros e [->|[->|[->| ->]]]; split; discriminate).
  split; [|split; [|split]].
  - destruct (supported_dec self) as [Hs|Hn].
    + rewrite forward_run by assumption. destruct Hs as [Hc Hf].
      destruct (validate qmin qmax zp delay iter) as [e|] eqn:E.
      * apply validate_error, Hve in E as [E1 E2].
        split; [intros H; inversion H; contradiction | congruence].
      * split; [discriminate | congruence].
    + rewrite forward_unsupported by assumption.
      unfold supported in Hn.
      destruct (is_cuda self); split; (discriminate || tauto || reflexivity).
  - destruct (supported_dec self) as [Hs|Hn].
    + rewrite forward_run by assumption. destruct Hs as [Hc Hf].
      destruct (validate qmin qmax zp delay iter) as [e|] eqn:E.
      * apply validate_error, Hve in E as [E1 E2].
        split; [intros H; inversion H; contradiction | tauto].
      * split; [discriminate | tauto].
    + rewrite forward_unsupported by assumption.
      unfold supported in Hn.
      destruct (is_cuda self); split; try discriminate; try tauto;
        try reflexivity.
      intros [? _]. discriminate.
  - destruct (supported_dec X) as [Hs|Hn].
    + rewrite backward_run by assumption. destruct Hs as [Hc Hf].
      destruct (validate_quant qmin qmax zp delay) as [e|] eqn:E.
      * apply validate_quant_error, Hve in E as [E1 E2].
        split; [intros H; inversion H; contradiction | congruence].
      * repeat match goal with |- context [if ?c then _ else _] =>
          destruct c end; split; (discriminate || congruence).
    + rewrite backward_unsupported by assumption.
      unfold supported in Hn.
      destruct (is_cuda X); split; (discriminate || tauto || reflexivity).
  - destruct (supported_dec X) as [Hs|Hn].
    + rewrite backward_run by assumption. destruct Hs as [Hc Hf].
      destruct (validate_quant qmin qmax zp delay) as [e|] eqn:E.
      * apply validate_quant_error, Hve in E as [E1 E2].
        split; [intros H; inversion H; contradiction | tauto].
      * repeat match goal with |- context [if ?c then _ else _] =>
          destruct c end; split; (discriminate || tauto).
    + rewrite backward_unsupported by assumption.
      unfold supported in Hn.
      destruct (is_cuda X); split; try discriminate; try tauto;
        try reflexivity.
      intros [? _]. discriminate.
Qed.

(** X13: with [quant_delay = 0] the iteration counter is ignored, negative
    values too: both operators return the same result for every [iter]. *)
Theorem iter_ignored_without_delay uninit (self dY X : Tensor) scale zp qmin
    qmax iter iter' (h : Heap) :
  fake_quantize_per_tensor_affine_cuda uninit self scale zp qmin qmax 0 iter h
  = fake_quantize_per_tensor_affine_cuda uninit self scale zp qmin qmax 0
      iter' h /\
  fake_quantize_per_tensor_affine_backward_cuda uninit dY X scale zp qmin qmax
    0 iter h
  = fake_quantize_per_tensor_affine_backward_cuda uninit dY X scale zp qmin
      qmax 0 iter' h.
Proof.
  split.
  - destruct (supported_dec self) as [Hs|Hn].
    + rewrite !forward_run by assumption.
      unfold validate, forward_heap, warm_up. simpl. reflexivity.
    + now rewrite !forward_unsupported.
  - destruct (supported_dec X) as [Hs|Hn].
    + rewrite !backward_run by assumption.
      unfold backward_heap, warm_up. simpl. reflexivity.
    + now rewrite !backward_unsupported.
Qed.

Lemma zip_with_ignore_r {A B C} (f : A -> C) (l : list A) (k k' : list B) :
  length k = length k' ->
  zip_with (fun a _ => f a) l k = zip_with (fun a _ => f a) l k'.
Proof.
  revert k k'. induction l as [|a l IH]; intros [|b k] [|b' k'] Hlen;
    simpl in *; try discriminate; try reflexivity.
  f_equal. apply IH. now injection Hlen.
Qed.

(** X2: no uninitialised value reaches the result of the forward operator:
    on a well-formed input the tensor returned and the whole heap are the
    same whatever a fresh buffer holds. *)
Theorem forward_hides_uninit uninit uninit' (self : Tensor) scale zp qmin qmax
    delay iter (h : Heap) :
  wf h self ->
  fake_quantize_per_tensor_affine_cuda uninit self scale zp qmin qmax delay
    iter h
  = fake_quantize_per_tensor_affine_cuda uninit' self scale zp qmin qmax delay
      iter h.
Proof.
  intros Hwf. destruct (supported_dec self) as [Hs|Hn].
  - rewrite !forward_run by assumption.
    destruct (validate qmin qmax zp delay iter); [reflexivity|].
    do 2 f_equal. unfold forward_heap. cbv zeta.
    rewrite !data_insert_fresh by assumption.
    rewrite !insert_insert_eq.
    destruct (warm_up delay iter); [reflexivity|].
    f_equal. apply zip_with_ignore_r. now rewrite !length_uninit.
  - now rewrite !forward_unsupported.
Qed.

Lemma forward_hides_uninit_witness :
  fake_quantize_per_tensor_affine_cuda Scenario.garbage Scenario.X
    Scenario.scale 10 0 255 0 0 Scenario.heap
  = fake_quantize_per_tensor_affine_cuda (fun _ => one) Scenario.X
      Scenario.scale 10 0 255 0 0 Scenario.heap.
Proof.
  apply (forward_hides_uninit Scenario.garbage (fun _ => one) Scenario.X
           Scenario.scale 10 0 255 0 0 Scenario.heap scenario_X_wf).
Defined.

(** X3: no uninitialised value reaches the result of the backward operator. *)
Theorem backward_hides_uninit uninit uninit' (dY X : Tensor) scale zp qmin
    qmax delay iter (h : Heap) :
  wf h X -> wf h dY ->
  fake_quantize_per_tensor_affine_backward_cuda uninit dY X scale zp qmin qmax
    delay iter h
  = fake_quantize_per_tensor_affine_backward_cuda uninit' dY X scale zp qmin
      qmax delay iter h.
Proof.
  intros HX HdY. destruct (supported_dec X) as [Hs|Hn].
  - rewrite !backward_run by assumption.
    destruct (validate_quant qmin qmax zp delay); [reflexivity|].
    destruct (numel X <=? 0); [reflexivity|].
    destruct (negb (numel X =? numel dY)); [reflexivity|].
    destruct (negb (delay =? 0) && (iter <? 0)); [reflexivity|].
    f_equal. unfold backward_heap. cbv zeta.
    destruct (warm_up delay iter); [reflexivity|].
    set (h1 := <[fresh (dom h) := _]> h).
    assert (wf h1 X) as HX1 by now apply wf_insert_fresh.
    rewrite !data_insert_fresh by assumption.
    rewrite !insert_insert_eq.
    rewrite (zip_with_ignore_r _ (data h1 X) (uninit <$> _) (uninit' <$> _))
      by now rewrite !length_uninit.
    reflexivity.
  - now rewrite !backward_unsupported.
Qed.

Lemma backward_hides_uninit_witness :
  fake_quantize_per_tensor_affine_backward_cuda Scenario.garbage Scenario.dY
    Scenario.X Scenario.scale 10 0 255 0 0 Scenario.heap
  = fake_quantize_per_tensor_affine_backward_cuda (fun _ => one) Scenario.dY
      Scenario.X Scenario.scale 10 0 255 0 0 Scenario.heap.
Proof.
  apply (backward_hides_uninit Scenario.garbage (fun _ => one) Scenario.dY
           Scenario.X Scenario.scale 10 0 255 0 0 Scenario.heap
           scenario_X_wf scenario_dY_wf).
Defined.

(** Where every element is in range the gradient passes bit for bit. *)
Lemma zip_with_mask_one (f : float -> float) (l k : list float) :
  length l = length k ->
  Forall (fun x => f x = one) l ->
  Forall (fun g => fvalid g = true) k ->
  zip_with fmul (f <$> l) k = k.
Proof.
  revert k. induction l as [|x l IH]; intros [|g k] Hlen Hl Hk;
    simpl in *; try discriminate; try reflexivity.
  apply Forall_cons in Hl as [Hx Hl]. apply Forall_cons in Hk as [Hg Hk].
  rewrite Hx, Rounding.fmul_one_valid by assumption.
  f_equal. apply IH; [now injection Hlen | assumption | assumption].
Qed.

(** X10: the straight-through estimator is exact where it passes: with
    valid parameters and conformant tensors, outside the warm-up window,
    the gradient returned holds at every in-range position the element of
    [gradOutput] itself when that is a valid [float] other than a NaN
    (sign, mantissa and exponent are those of the element), and a NaN when
    that is a NaN; it is [gradOutput] element for element when every
    position is in range and [gradOutput] holds no NaN.  The payload of a
    NaN is not part of [spec_float], and nothing is said about it. *)
Theorem gradient_passes_through uninit (dY X : Tensor) scale zp qmin qmax
    delay iter (h : Heap) :
  supported X -> wf h X -> wf h dY -> numel X = numel dY ->
  validate qmin qmax zp delay iter = None ->
  delay = 0 \/ delay < iter ->
  exists G h',
    fake_quantize_per_tensor_affine_backward_cuda uninit dY X scale zp qmin
      qmax delay iter h = Ok (G, h') /\
    (forall (i : nat) x g,
       data h X !! i = Some x -> data h dY !! i = Some g ->
       in_range scale zp qmin qmax x = true ->
       exists g',
         data h' G !! i = Some g' /\
         (fvalid g = true -> is_nan g = false -> g' = g) /\
         (is_nan g = true -> is_nan g' = true)) /\
    (Forall (fun x => in_range scale zp qmin qmax x = true) (data h X) ->
     Forall (fun g => fvalid g = true /\ is_nan g = false) (data h dY) ->
     data h' G = data h dY).
Proof.
  intros Hs HX HdY Hn Hv Hw.
  destruct (backward_quantized uninit dY X scale zp qmin qmax delay iter h
              Hs HX HdY Hn Hv Hw) as (G & h' & Hrun & Hdata).
  exists G, h'. split; [assumption|]. rewrite Hdata. split.
  - intros i x g Hx Hg Hin. exists (fmul one g). split; [|split].
    + apply lookup_zip_with_Some. exists one, g.
      split; [reflexivity|]. split; [|assumption].
      rewrite list_lookup_fmap, Hx. simpl. unfold spec_mask. now rewrite Hin.
    + intros Hval _. now apply Rounding.fmul_one_valid.
    + destruct g; try discriminate. reflexivity.
  - intros Hall Hval. apply zip_with_mask_one.
    + rewrite (wf_length h X HX), (wf_length h dY HdY), Hn. reflexivity.
    + eapply Forall_impl; [exact Hall|].
      intros x Hin. unfold spec_mask. now rewrite Hin.
    + eapply Forall_impl; [exact Hval|]. now intros g [Hg _].
Qed.

Lemma gradient_passes_through_witness :
  exists G h',
    fake_quantize_per_tensor_affine_backward_cuda Scenario.garbage Scenario.dY
      Scenario.X Scenario.scale 10 0 255 0 0 Scenario.heap = Ok (G, h') /\
    (forall (i : nat) x g,
       data Scenario.heap Scenario.X !! i = Some x ->
       data Scenario.heap Scenario.dY !! i = Some g ->
       in_range Scenario.scale 10 0 255 x = true ->
       exists g',
         data h' G !! i = Some g' /\
         (fvalid g = true -> is_nan g = false -> g' = g) /\
         (is_nan g = true -> is_nan g' = true)) /\
    (Forall (fun x => in_range Scenario.scale 10 0 255 x = true)
       (data Scenario.heap Scenario.X) ->
     Forall (fun g => fvalid g = true /\ is_nan g = false)
       (data Scenario.heap Scenario.dY) ->
     data h' G = data Scenario.heap Scenario.dY).
Proof.
  apply (gradient_passes_through Scenario.garbage Scenario.dY Scenario.X
           Scenario.scale 10 0 255 0 0 Scenario.heap
           scenario_X_supported scenario_X_wf scenario_dY_wf);
    [reflexivity | reflexivity | left; reflexivity].
Defined.

Lemma size_dom_insert_new (h : Heap) (k : nat) (l : list float) :
  k ∉ dom h -> size (dom (<[k := l]> h)) = S (size (dom h)).
Proof.
  intros Hk. rewrite dom_insert_L, size_union
    by now apply disjoint_singleton_l.
  now rewrite size_singleton.
Qed.

Lemma dom_insert_old (h : Heap) (k : nat) (l : list float) :
  k ∈ dom h -> dom (<[k := l]> h) = dom h.
Proof.
  intros Hk. rewrite dom_insert_L. apply set_eq. intros x.
  rewrite elem_of_union, elem_of_singleton.
  split; [intros [->|]; assumption | auto].
Qed.

(** X11: the forward operator allocates one buffer.  The backward operator, on
    an input with at least one element, allocates one buffer inside the
    warm-up window and three outside it (the zeros it first asks for, the
    mask, and the product), of which it returns one. *)
Theorem buffers_allocated uninit (self dY X : Tensor) scale zp qmin qmax delay
    iter (h : Heap) :
  (forall Y h',
     fake_quantize_per_tensor_affine_cuda uninit self scale zp qmin qmax
       delay iter h = Ok (Y, h') ->
     dom h' = {[storage Y]} ∪ dom h /\ size (dom h') = S (size (dom h))) /\
  (forall G h',
     fake_quantize_per_tensor_affine_backward_cuda uninit dY X scale zp qmin
       qmax delay iter h = Ok (G, h') ->
     0 < numel X ->
     size (dom h') =
       (size (dom h) + if warm_up delay iter then 1 else 3)%nat).
Proof.
  split.
  - intros Y h' Hrun.
    pose proof (forward_Ok_supported _ _ _ _ _ _ _ _ _ _ Hrun) as Hs.
    rewrite forward_run in Hrun by assumption.
    destruct (validate qmin qmax zp delay iter); [discriminate|].
    injection Hrun as <- <-. simpl storage.
    pose proof (is_fresh (dom h)) as Hk.
    assert (dom (forward_heap uninit self scale zp qmin qmax delay iter h)
            = {[fresh (dom h)]} ∪ dom h) as E.
    { unfold forward_heap. cbv zeta.
      destruct (warm_up delay iter);
        now rewrite insert_insert_eq, dom_insert_L. }
    split; [exact E|].
    rewrite E, size_union by now apply disjoint_singleton_l.
    now rewrite size_singleton.
  - intros G h' Hrun Hpos.
    pose proof (backward_Ok_supported _ _ _ _ _ _ _ _ _ _ _ Hrun) as Hs.
    rewrite backward_run in Hrun by assumption.
    destruct (validate_quant qmin qmax zp delay); [discriminate|].
    destruct (Z.leb_spec (numel X) 0); [lia|].
    destruct (negb (numel X =? numel dY)); [discriminate|].
    destruct (negb (delay =? 0) && (iter <? 0)); [discriminate|].
    injection Hrun as Hrun. unfold backward_heap in Hrun. cbv zeta in Hrun.
    destruct (warm_up delay iter); injection Hrun as _ <-.
    + rewrite dom_insert_old
        by (rewrite dom_insert_L; now apply elem_of_union_l, elem_of_singleton).
      rewrite size_dom_insert_new by apply is_fresh. lia.
    + set (h1 := <[fresh (dom h) := _]> h).
      set (h2 := <[fresh (dom h1) := _]> h1).
      set (h3 := <[fresh (dom h1) := _]> h2).
      rewrite size_dom_insert_new by apply is_fresh.
      unfold h3. rewrite dom_insert_old
        by (unfold h2; rewrite dom_insert_L;
            now apply elem_of_union_l, elem_of_singleton).
      unfold h2. rewrite size_dom_insert_new by apply is_fresh.
      unfold h1. rewrite size_dom_insert_new by apply is_fresh. lia.
Qed.

Lemma buffers_allocated_witness :
  exists G h',
    fake_quantize_per_tensor_affine_backward_cuda Scenario.garbage
      Scenario.dY Scenario.X Scenario.scale 10 0 255 0 0 Scenario.heap
    = Ok (G, h') /\
    size (dom h') = (size (dom Scenario.heap) + 3)%nat.
Proof.
  pose proof (backward_returns Scenario.garbage Scenario.dY Scenario.X
                Scenario.scale 10 0 255 0 0 Scenario.heap
                scenario_X_supported eq_refl eq_refl eq_refl) as Hrun.
  destruct (backward_heap Scenario.garbage Scenario.dY Scenario.X
              Scenario.scale 10 0 255 0 0 Scenario.heap) as [G h'].
  exists G, h'. split; [exact Hrun|].
  exact (proj2 (buffers_allocated Scenario.garbage Scenario.X Scenario.dY
                  Scenario.X Scenario.scale 10 0 255 0 0 Scenario.heap)
           G h' Hrun eq_refl).
Defined.

Lemma wf_frame (h h' : Heap) (t : Tensor) :
  (forall k, k ∈ dom h -> h' !! k = h !! k) -> wf h t -> wf h' t.
Proof.
  intros Hframe (d & Hd & Hlen). exists d. split; [|assumption].
  rewrite Hframe; [assumption|]. apply elem_of_dom. eauto.
Qed.

Lemma backward_heap_wf uninit dY X scale zp qmin qmax delay iter (h : Heap) :
  wf h X -> wf h dY -> numel X = numel dY ->
  let '(G, h') := backward_heap uninit dY X scale zp qmin qmax delay iter h in
  wf h' G.
Proof.
  intros HX HdY Hn.
  pose proof (backward_heap_data uninit dY X scale zp qmin qmax delay iter h
                HX HdY Hn) as Hdata.
  pose proof (wf_length h X HX) as LX. pose proof (wf_length h dY HdY) as LY.
  assert (is_Some ((backward_heap uninit dY X scale zp qmin qmax delay iter h).2
                   !! storage (backward_heap uninit dY X scale zp qmin qmax
                                 delay iter h).1)
          /\ numel (backward_heap uninit dY X scale zp qmin qmax delay iter h).1
             = numel dY) as [Hsome HnG].
  { unfold backward_heap. cbv zeta.
    destruct (warm_up delay iter); simpl; rewrite lookup_insert_eq; eauto. }
  destruct (backward_heap uninit dY X scale zp qmin qmax delay iter h)
    as [G h']. simpl in Hsome, HnG.
  destruct Hsome as [d Hd]. exists d. split; [assumption|].
  unfold data in Hdata at 1. rewrite Hd in Hdata. simpl in Hdata.
  rewrite HnG, Hdata.
  destruct (warm_up delay iter).
  - rewrite LY. unfold numel. lia.
  - rewrite length_zip_with, length_fmap, LX, LY, Hn. unfold numel. lia.
Qed.

(** X12: well-formedness is kept: with valid parameters the forward operator
    returns a supported, well-formed tensor, the backward operator (on
    conformant tensors) a well-formed tensor with the element count of its
    input, and every tensor that was well formed before the call still is,
    so that the operators can be applied to one another's results. *)
Theorem well_formed_preserved uninit (self dY X : Tensor) scale zp qmin qmax
    delay iter (h : Heap) :
  supported self -> supported X ->
  wf h self -> wf h X -> wf h dY -> numel X = numel dY ->
  validate qmin qmax zp delay iter = None ->
  (exists Y h',
     fake_quantize_per_tensor_affine_cuda uninit self scale zp qmin qmax
       delay iter h = Ok (Y, h') /\
     supported Y /\ wf h' Y /\ numel Y = numel self /\
     forall t, wf h t -> wf h' t) /\
  (exists G h',
     fake_quantize_per_tensor_affine_backward_cuda uninit dY X scale zp qmin
       qmax delay iter h = Ok (G, h') /\
     wf h' G /\ numel G = numel X /\
     forall t, wf h t -> wf h' t).
Proof.
  intros Hself HX Hwself HwX HwdY Hn Hv. split.
  - rewrite forward_returns by assumption.
    eexists _, _. split; [reflexivity|].
    split; [exact Hself|]. split; [now apply forward_heap_wf|].
    split; [reflexivity|].
    intros t. apply wf_frame. intros k Hk. now apply forward_heap_frame.
  - pose proof (proj1 (validate_None _ _ _ _ _) Hv) as (Hq & Hzp & Hd & _).
    destruct (Z.leb_spec (numel X) 0) as [Hle|Hgt].
    + assert (numel X = 0) as H0 by (unfold numel in *; lia).
      rewrite backward_run by assumption.
      assert (validate_quant qmin qmax zp delay = None) as ->
        by (apply validate_quant_None; auto).
      rewrite H0. simpl. exists X, h. auto.
    + rewrite backward_returns by assumption.
      pose proof (backward_heap_wf uninit dY X scale zp qmin qmax delay iter h
                    HwX HwdY Hn) as HwG.
      pose proof (backward_heap_frame uninit dY X scale zp qmin qmax delay
                    iter h) as Hframe.
      pose proof (backward_heap_fresh uninit dY X scale zp qmin qmax delay
                    iter h) as [_ Hsz].
      destruct (backward_heap uninit dY X scale zp qmin qmax delay iter h)
        as [G h']. simpl in Hframe, Hsz.
      exists G, h'. split; [reflexivity|]. split; [assumption|].
      split; [unfold numel; rewrite Hsz; exact (eq_sym Hn)|].
      intros t. now apply wf_frame.
Qed.

Lemma well_formed_preserved_witness :
  exists Y h',
    fake_quantize_per_tensor_affine_cuda Scenario.garbage Scenario.X
      Scenario.scale 10 0 255 0 0 Scenario.heap = Ok (Y, h') /\
    supported Y /\ wf h' Y /\ numel Y = numel Scenario.X /\
    forall t, wf Scenario.heap t -> wf h' t.
Proof.
  apply (well_formed_preserved Scenario.garbage Scenario.X Scenario.dY
           Scenario.X Scenario.scale 10 0 255 0 0 Scenario.heap
           scenario_X_supported scenario_X_supported
           scenario_X_wf scenario_X_wf scenario_dY_wf eq_refl eq_refl).
Defined.

(** ** Rounding never makes a NaN *)

Lemma shr_1_keeps_nonneg mrs : 0 <= shr_m mrs -> 0 <= shr_m (shr_1 mrs).
Proof.
  destruct mrs as [m r s]. simpl shr_m at 1. intros Hm.
  rewrite Rounding.shr_1_nonneg by assumption. simpl.
  apply Z.div_pos; lia.
Qed.

Lemma shr_keeps_nonneg mrs e n : 0 <= shr_m mrs -> 0 <= shr_m (shr mrs e n).1.
Proof.
  intros Hm. unfold shr. destruct n as [|p|p]; simpl; try assumption.
  rewrite Rounding.iter_pos_nat.
  induction (Pos.to_nat p) as [|k IH]; simpl; [assumption|].
  now apply shr_1_keeps_nonneg.
Qed.

Lemma round_nearest_even_nonneg m l : 0 <= m -> 0 <= round_nearest_even m l.
Proof.
  intros Hm. unfold round_nearest_even.
  destruct l as [|[| |]]; try destruct (Z.even m); lia.
Qed.

Lemma shr_record_of_loc_m m l : shr_m (shr_record_of_loc m l) = m.
Proof. destruct l as [|[| |]]; reflexivity. Qed.

Lemma binary_round_aux_not_nan prec emax s m e l :
  0 <= m -> is_nan (binary_round_aux prec emax s m e l) = false.
Proof.
  intros Hm. unfold binary_round_aux, shr_fexp.
  pose proof (shr_keeps_nonneg (shr_record_of_loc m l) e
                (fexp prec emax (Zdigits2 m + e) - e)) as H1.
  rewrite shr_record_of_loc_m in H1. specialize (H1 Hm).
  destruct (shr (shr_record_of_loc m l) e _) as [mrs' e'].
  simpl in H1.
  pose proof (round_nearest_even_nonneg (shr_m mrs') (loc_of_shr_record mrs') H1)
    as H2.
  set (m2 := round_nearest_even (shr_m mrs') (loc_of_shr_record mrs')) in *.
  pose proof (shr_keeps_nonneg (shr_record_of_loc m2 loc_Exact) e'
                (fexp prec emax (Zdigits2 m2 + e') - e')) as H3.
  rewrite shr_record_of_loc_m in H3. specialize (H3 H2).
  destruct (shr (shr_record_of_loc m2 loc_Exact) e' _) as [mrs'' e''].
  simpl in H3.
  destruct (shr_m mrs'') as [|q|q]; try lia; [reflexivity|].
  destruct (e'' <=? emax - prec); reflexivity.
Qed.

Lemma binary_normalize_not_nan prec emax m e s :
  is_nan (binary_normalize prec emax m e s) = false.
Proof.
  unfold binary_normalize, binary_round.
  destruct m as [|p|p]; [reflexivity| |];
    destruct (shl_align p e _) as [mz ez];
    apply binary_round_aux_not_nan; lia.
Qed.

Lemma fsub_finite_not_nan x y :
  is_finite x = true -> is_finite y = true -> is_nan (fsub x y) = false.
Proof.
  destruct x as [sx|sx| |sx mx ex], y as [sy|sy| |sy my ey];
    try discriminate; intros _ _.
  - destruct sx, sy; reflexivity.
  - reflexivity.
  - reflexivity.
  - unfold fsub, SFsub. apply binary_normalize_not_nan.
Qed.

Lemma double_of_float_not_nan x :
  is_nan x = false -> is_nan (double_of_float x) = false.
Proof.
  destruct x; try discriminate; intros _; try reflexivity.
  unfold double_of_float. apply binary_normalize_not_nan.
Qed.

Lemma float_of_double_not_nan x :
  is_nan x = false -> is_nan (float_of_double x) = false.
Proof.
  destruct x; try discriminate; intros _; try reflexivity.
  unfold float_of_double. apply binary_normalize_not_nan.
Qed.

Lemma dmul_not_nan x s m e :
  is_nan x = false -> is_nan (dmul x (S754_finite s m e)) = false.
Proof.
  destruct x as [sx|sx| |sx mx ex]; try discriminate; intros _;
    try reflexivity.
  unfold dmul, SFmul. apply binary_round_aux_not_nan. lia.
Qed.

Lemma same_value_is_finite x y :
  same_value x y -> is_finite y = true -> is_finite x = true.
Proof.
  intros [->|[Hx Hy]]; [auto|]. destruct x; try discriminate. reflexivity.
Qed.

(** The forward lambda never returns a NaN when [scale] is finite and not
    zero, whatever the element is, a NaN included. *)
Lemma forward_kernel_not_nan scale inv zp qmin qmax x s m e :
  int64 qmin -> int64 qmax -> int64 zp -> qmin <= qmax ->
  scale = S754_finite s m e ->
  is_nan (forward_kernel scale inv zp qmin qmax x) = false.
Proof.
  intros Imin Imax Izp Hq ->.
  rewrite Rounding.forward_kernel_eq.
  destruct (Rounding.clamp_on_grid
              (fadd (fmul x inv) (float_of_int64 zp)) qmin qmax Hq)
    as (q & Hr & Hs).
  set (c := clamp _ _ _) in *.
  assert (is_finite c = true) as Fc.
  { apply (same_value_is_finite _ _ Hs).
    apply float_of_int64_finite. unfold int64 in *. lia. }
  unfold dequantize.
  apply float_of_double_not_nan, dmul_not_nan, double_of_float_not_nan,
    fsub_finite_not_nan; [assumption|].
  now apply float_of_int64_finite.
Qed.

(** X9: with valid [int64_t] parameters, a [scale] that is finite and not
    zero, and outside the warm-up window, no element of the tensor that the
    forward operator returns is a NaN, whatever the input holds. *)
Theorem forward_never_nan uninit (self : Tensor) scale zp qmin qmax delay iter
    (h : Heap) s m e :
  supported self -> wf h self ->
  int64 qmin -> int64 qmax -> int64 zp ->
  validate qmin qmax zp delay iter = None ->
  delay = 0 \/ delay < iter ->
  scale = S754_finite s m e ->
  exists Y h',
    fake_quantize_per_tensor_affine_cuda uninit self scale zp qmin qmax delay
      iter h = Ok (Y, h') /\
    forall (i : nat) y, data h' Y !! i = Some y -> is_nan y = false.
Proof.
  intros Hs Hwf Imin Imax Izp Hv Hw Hscale.
  pose proof (proj1 (validate_None _ _ _ _ _) Hv) as (Hq & _ & Hd & _).
  assert (warm_up delay iter = false) as Hw'
    by (apply warm_up_false; assumption).
  rewrite forward_returns by assumption.
  eexists _, _. split; [reflexivity|].
  rewrite forward_heap_data, Hw' by assumption.
  intros i y Hy. rewrite list_lookup_fmap in Hy.
  apply fmap_Some in Hy as (x & _ & ->).
  now apply (forward_kernel_not_nan scale _ zp qmin qmax x s m e).
Qed.

Lemma forward_never_nan_witness :
  exists Y h',
    fake_quantize_per_tensor_affine_cuda Scenario.garbage Scenario.X
      Scenario.scale 10 0 255 0 0 Scenario.heap = Ok (Y, h') /\
    forall (i : nat) y, data h' Y !! i = Some y -> is_nan y = false.
Proof.
  apply (forward_never_nan Scenario.garbage Scenario.X Scenario.scale
           10 0 255 0 0 Scenario.heap false 4503599627370496 (-53)
           scenario_X_supported scenario_X_wf);
    [unfold int64; lia | unfold int64; lia | unfold int64; lia
    | reflexivity | left; reflexivity | reflexivity].
Defined.

(** ** Exact arithmetic on small integers and powers of two *)















(** ** Idempotence for a scale that is a power of two (C6) *)






